(** * CashFusion Qt plugin: the per-wallet autofuse lifecycle

    A shallow embedding of the coordination code of
    [plugins/fusion/qt.py] (classes [Plugin], [PasswordDialog],
    [FusionButton], [WalletSettingsDialog], [FusionsWindow]) and the
    properties its specification states about it.

    The Python objects are kept in one [World]; methods are computations in
    a state-and-exception monad [M], so that a [try]/[except] keeps the
    mutations made before the exception was raised, as Python does. *)

From Stdlib Require Import ZArith String List Bool Lia.
From stdpp Require Import base option list strings gmap fin_maps functions relations sorting.

Open Scope string_scope.

(** ** Data model *)

Abbreviation wallet_id := string (only parsing).
Abbreviation fid := nat (only parsing).
Abbreviation win_id := nat (only parsing).

(** The exceptions the embedded methods raise or catch. *)
Inductive exn : Type :=
| InvalidPassword
| RuntimeError (msg : string).

(** [Fusion.status[0]]. *)
Inductive Status : Type :=
| waiting | running | stopping | stopped | complete | failed.

Global Instance Status_eq_dec : EqDecision Status.
Proof. solve_decision. Defined.

Record Fusion : Type := mkFusion {
  status : Status;
  status_extra : string;
  target_wallet : wallet_id;
  txid : option string }.

(** What the plugin reads of an [Abstract_Wallet].  [has_password] and
    [check_password] belong to the wallet library and are taken as they
    come: [check_password pw = false] stands for [wallet.check_password(pw)]
    raising [InvalidPassword]. *)
Record Wallet : Type := mkWallet {
  has_password : bool;
  check_password : option string → bool;
  weak_window : option win_id;
  storage : gmap string Z;
  _fusions : list fid;
  _fusions_auto : list fid }.

Record Window : Type := mkWindow {
  wallet : wallet_id }.

(** The part of a [FusionButton] its slot [update_server_error] works on;
    [self_id] stands for [str(id(self))]. *)
Record FusionButton : Type := mkFusionButton {
  self_id : string;
  server_error : option (string * string) }.

(** Calls that leave the modelled objects, in the order they are made. *)
Inductive Event : Type :=
| EvStop (f : fid) (reason : string) (not_if_running : bool)
| EvPrintError (w : wallet_id) (msg : string)
| EvServerStatusChanged (b : bool) (tup : string * string)
| EvQuestion (w : wallet_id) (num : nat)
| EvShowPopupLabel (name : string)
| EvKillPopupLabel (name : string).

Record World : Type := mkWorld {
  wallets : wallet_id → Wallet;
  windows : gmap win_id Window;            (* the windows still alive *)
  password_cache : gmap wallet_id string;  (* of [window.gui_object] *)
  fusions : gmap fid Fusion;               (* the Fusion objects *)
  autofusing_wallets : gmap wallet_id (option string);
  active : bool;
  last_server_status : bool * (string * string);
  trace : list Event }.

Definition set_wallets (f : (wallet_id → Wallet) → wallet_id → Wallet) (σ : World) : World :=
  mkWorld (f (wallets σ)) (windows σ) (password_cache σ) (fusions σ)
          (autofusing_wallets σ) (active σ) (last_server_status σ) (trace σ).

Definition set_password_cache (f : gmap wallet_id string → gmap wallet_id string) (σ : World) : World :=
  mkWorld (wallets σ) (windows σ) (f (password_cache σ)) (fusions σ)
          (autofusing_wallets σ) (active σ) (last_server_status σ) (trace σ).

Definition set_fusions (f : gmap fid Fusion → gmap fid Fusion) (σ : World) : World :=
  mkWorld (wallets σ) (windows σ) (password_cache σ) (f (fusions σ))
          (autofusing_wallets σ) (active σ) (last_server_status σ) (trace σ).

Definition set_autofusing_wallets
    (f : gmap wallet_id (option string) → gmap wallet_id (option string)) (σ : World) : World :=
  mkWorld (wallets σ) (windows σ) (password_cache σ) (fusions σ)
          (f (autofusing_wallets σ)) (active σ) (last_server_status σ) (trace σ).

Definition set_last_server_status (s : bool * (string * string)) (σ : World) : World :=
  mkWorld (wallets σ) (windows σ) (password_cache σ) (fusions σ)
          (autofusing_wallets σ) (active σ) s (trace σ).

Definition emit (e : Event) (σ : World) : World :=
  mkWorld (wallets σ) (windows σ) (password_cache σ) (fusions σ)
          (autofusing_wallets σ) (active σ) (last_server_status σ) (trace σ ++ [e]).

(** ** The monad of methods *)

Definition M (A : Type) : Type := World → (exn + A) * World.

Definition ret {A} (a : A) : M A := λ σ, (inr a, σ).

Definition bind {A B} (m : M A) (k : A → M B) : M B :=
  λ σ, match m σ with
       | (inl e, σ') => (inl e, σ')
       | (inr a, σ') => k a σ'
       end.

Definition raise {A} (e : exn) : M A := λ σ, (inl e, σ).

(** [try: m except e: h e]; the handler re-raises what it does not catch. *)
Definition try_except {A} (m : M A) (h : exn → M A) : M A :=
  λ σ, match m σ with
       | (inl e, σ') => h e σ'
       | (inr a, σ') => (inr a, σ')
       end.

Definition gets {A} (f : World → A) : M A := λ σ, (inr (f σ), σ).
Definition modify (f : World → World) : M unit := λ σ, (inr tt, f σ).

Declare Scope py_scope.
Delimit Scope py_scope with py.
Notation "x <- m ;; k" := (bind m (λ x, k))
  (at level 100, m at next level, k at level 200, right associativity) : py_scope.
Notation "m ;;; k" := (bind m (λ _, k))
  (at level 100, k at level 200, right associativity) : py_scope.
Open Scope py_scope.

(** [for x in l: body x] *)
Fixpoint for_each {A} (l : list A) (body : A → M unit) : M unit :=
  match l with
  | [] => ret tt
  | x :: l' => body x ;;; for_each l' body
  end.

(** ** External collaborators *)

(** [wallet.has_password()] and [wallet.check_password(pw)]. *)
Definition wallet_has_password (w : wallet_id) : M bool :=
  gets (λ σ, has_password (wallets σ w)).

Definition wallet_check_password (w : wallet_id) (pw : option string) : M unit :=
  ok <- gets (λ σ, check_password (wallets σ w) pw) ;;
  if ok : bool then ret tt else raise InvalidPassword.

(** Modelled from the spec: the password cache of [window.gui_object]
    ([ElectrumGui.get_cached_password] and [cache_password] are not among
    the sources).  "At most one per wallet"; [cache] "stores the password,
    overwriting any previous entry for that wallet.  No validation is
    performed here." *)
Definition gui_get_cached_password (w : wallet_id) : M (option string) :=
  gets (λ σ, password_cache σ !! w).

(** Modelled from the spec: [ElectrumGui.cache_password], the [cache] of
    the spec's CredentialCache; it overwrites and validates nothing. *)
Definition gui_cache_password (w : wallet_id) (password : string) : M unit :=
  modify (set_password_cache <[w := password]>).

(** ** [Plugin]: the credential cache *)

(** [(wallet.weak_window and wallet.weak_window()) or None] *)
Definition window_for_wallet (w : wallet_id) : M (option Window) :=
  gets (λ σ, match weak_window (wallets σ w) with
             | None => None
             | Some r => windows σ !! r
             end).

Definition lacks_window_msg (w : wallet_id) : string :=
  "Wallet " +:+ w +:+ " lacks a valid ElectrumWindow instance!".

Definition get_cached_pw (w : wallet_id) : M (bool * option string) :=
  hp <- wallet_has_password w ;;
  if negb hp then ret (false, None) else
  window <- window_for_wallet w ;;
  match window with
  | None => raise (RuntimeError (lacks_window_msg w))
  | Some _ =>
      pw <- gui_get_cached_password w ;;
      pw <- match pw with
            | Some p =>
                try_except (wallet_check_password w (Some p) ;;; ret (Some p))
                           (λ e, match e with
                                 | InvalidPassword => ret None
                                 | _ => raise e
                                 end)
            | None => ret None
            end ;;
      ret (true, pw)
  end.

Definition cache_pw (w : wallet_id) (password : string) : M unit :=
  window <- window_for_wallet w ;;
  match window with
  | Some _ => gui_cache_password w password
  | None => ret tt
  end.

(** ** [Fusion] handles *)

(** Modelled from the spec: [Fusion.stop] (fusion.py is not among the
    sources).  A stop request "transitions waiting → stopped immediately
    (queued rounds can be cancelled without cost) but only flags
    running → stopping"; with [not_if_running] a running round is left
    alone ("running fusions are never force-stopped by a limit decrease").
    A handle that is already stopping or terminal is left as it is. *)
Definition Fusion_stop (reason : string) (not_if_running : bool) (h : Fusion) : Fusion :=
  match status h with
  | waiting => mkFusion stopped reason (target_wallet h) (txid h)
  | running =>
      if not_if_running then h
      else mkFusion stopping reason (target_wallet h) (txid h)
  | _ => h
  end.

(** [f.stop(reason, not_if_running = ...)] on the object behind [f]. *)
Definition fusion_stop (f : fid) (reason : string) (not_if_running : bool) : M unit :=
  modify (emit (EvStop f reason not_if_running)) ;;;
  modify (set_fusions (alter (Fusion_stop reason not_if_running) f)).

(** The terminal statuses: "stopped, complete, or failed". *)
Definition terminal (s : Status) : bool :=
  match s with
  | stopped | complete | failed => true
  | _ => false
  end.

(** Modelled from the spec: what the round engine does to a handle on its
    own, "waiting → running → {complete, failed}", and a flagged round
    "completes its current step before honoring the stop". *)
Definition engine_next (s s' : Status) : bool :=
  match s, s' with
  | waiting, running => true
  | running, complete | running, failed => true
  | stopping, stopped => true
  | _, _ => false
  end.

Definition engine_step (h h' : Fusion) : Prop :=
  engine_next (status h) (status h') = true ∧ target_wallet h' = target_wallet h.

(** Whatever may happen to a handle after some point: the engine advances
    it, or somebody requests a stop again. *)
Inductive handle_step : Fusion → Fusion → Prop :=
| handle_engine h h' : engine_step h h' → handle_step h h'
| handle_stop h reason nir : handle_step h (Fusion_stop reason nir h).

(** ** The plugin's registry (base class [FusionPlugin]) *)

Definition print_error (w : wallet_id) (msg : string) : M unit :=
  modify (emit (EvPrintError w msg)).

(** Modelled from the spec: [FusionPlugin.is_autofusing] (plugin.py is not
    among the sources), the [enabled] flag of the wallet's AutofuseConfig:
    the wallet is in the registry. *)
Definition is_autofusing (w : wallet_id) : M bool :=
  gets (λ σ, bool_decide (is_Some (autofusing_wallets σ !! w))).

(** Modelled from the spec: [FusionPlugin.enable_autofusing] (plugin.py).
    It "requires [password] satisfies the wallet's credential check; fails
    with InvalidCredential if not.  On success, marks [enabled=true],
    caches the password via CredentialCache".  The background task that
    starts new rounds is a thread of its own and is left out. *)
Definition enable_autofusing (w : wallet_id) (password : option string) : M unit :=
  wallet_check_password w password ;;;
  modify (set_autofusing_wallets <[w := password]>) ;;;
  match password with
  | Some p => cache_pw w p
  | None => ret tt
  end.

(** A round that has not ended: queued, running, or running and flagged
    to stop. *)
Definition in_flight (σ : World) (f : fid) : bool :=
  match fusions σ !! f with
  | Some h => negb (terminal (status h))
  | None => false
  end.

(** Modelled from the spec: [FusionPlugin.disable_autofusing] (plugin.py).
    It "marks [enabled=false] ... and returns the handles of currently
    running/queued rounds for this wallet ...  Does not itself stop
    in-flight rounds." *)
Definition disable_autofusing (w : wallet_id) : M (list fid) :=
  modify (set_autofusing_wallets (delete w)) ;;;
  gets (λ σ, List.filter (in_flight σ) (_fusions (wallets σ w))).

(** Modelled from the spec: [FusionPlugin.remove_wallet] (plugin.py), of
    which the spec only says what [shutdown_all] gets from it: "every
    active handle" of the wallet. *)
Definition remove_wallet (w : wallet_id) : M (list fid) :=
  gets (λ σ, List.filter (in_flight σ) (_fusions (wallets σ w))).

(** ** [Plugin]: hooks *)

(** The calls of [on_close_window] that take time in which the rounds go
    on: [f.stop(...)] and [f.join(timeout)]. *)
Inductive Call : Type :=
| CallStop (f : fid) (reason : string) (not_if_running : bool)
| CallJoin (f : fid) (timeout : option Z).

(** [on_close_window]: the wallet is removed, then every fusion is told to
    stop, then the task of the [WaitingDialog] joins every fusion, and
    [d.exec_()] returns when the task is done. *)
Definition on_close_window (window : Window) : M (list Call) :=
  let w := wallet window in
  fusions <- remove_wallet w ;;
  match fusions with
  | [] => ret []
  | _ =>
      ret (map (λ f, CallStop f "Closing wallet" false) fusions
           ++ map (λ f, CallJoin f None) fusions)%list
  end.

(** Modelled from the spec: [Fusion.join] (fusion.py) "waits for all such
    handles to reach a terminal state"; a join with a timeout may also give
    up.  The rounds run on threads of their own, so between any two calls
    the engine may advance any of them. *)
Inductive shutdown_step :
  gmap fid Fusion * list Call → gmap fid Fusion * list Call → Prop :=
| step_stop fs f reason nir k :
    shutdown_step (fs, CallStop f reason nir :: k)
                  (alter (Fusion_stop reason nir) f fs, k)
| step_join fs f timeout k :
    (∀ h, fs !! f = Some h → terminal (status h) = true) →
    shutdown_step (fs, CallJoin f timeout :: k) (fs, k)
| step_join_timeout fs f t k :
    shutdown_step (fs, CallJoin f (Some t) :: k) (fs, k)
| step_engine fs f h h' k :
    fs !! f = Some h → engine_step h h' →
    shutdown_step (fs, k) (<[f := h']> fs, k).

Definition on_new_password (window : Window) (old new : option string) : M unit :=
  let w := wallet window in
  autofusing <- is_autofusing w ;;
  if autofusing : bool then
    try_except
      (enable_autofusing w new ;;;
       print_error w "updated autofusion password")
      (λ e, match e with
            | InvalidPassword =>
                disable_autofusing w ;;;
                print_error w "disabled autofusion due to incorrect password - BUG"
            | _ => raise e
            end)
  else ret tt.

(** [notify_server_status]; [super().notify_server_status] is the base
    class's and touches none of the attributes below. *)
Definition notify_server_status (b : bool) (tup : string * string) : M unit :=
  let status_tup := (b, tup) in
  last <- gets last_server_status ;;
  if bool_decide (last ≠ status_tup) then
    modify (set_last_server_status status_tup) ;;;
    modify (emit (EvServerStatusChanged b tup))
  else ret tt.

Definition get_server_error : M (option (string * string)) :=
  gets (λ σ, if negb (last_server_status σ).1
             then Some (last_server_status σ).2 else None).

(** ** [PasswordDialog] *)

Definition _chk_pass (w : wallet_id) (password : string) : M bool :=
  hp <- wallet_has_password w ;;
  let pw_ok := negb hp in
  if pw_ok then ret true else
  try_except (wallet_check_password w (Some password) ;;; ret true)
             (λ e, match e with
                   | InvalidPassword => ret false
                   | _ => raise e
                   end).

(** [run]: the user types [attempts] one after the other ([pw_entered]);
    the first that passes is accepted ([_on_pw_ok]), and when none does the
    dialog is cancelled and [self.password] is still [None]. *)
Fixpoint PasswordDialog_run (w : wallet_id) (attempts : list string) : M (option string) :=
  match attempts with
  | [] => ret None
  | password :: rest =>
      ok <- _chk_pass w password ;;
      if ok : bool then cache_pw w password ;;; ret (Some password)
      else PasswordDialog_run w rest
  end.

(** ** [FusionButton] *)

(** [toggle_autofuse]; [attempts] is what the user types into the password
    dialog and [answer] whether the question box is answered [Yes].  The
    closing [self.update_state()] only redraws the button. *)
Definition toggle_autofuse (w : wallet_id) (attempts : list string) (answer : bool) : M unit :=
  autofuse <- is_autofusing w ;;
  if negb autofuse then
    r <- get_cached_pw w ;;
    let '(has_pw, password) := r in
    let enable (password : option string) : M unit :=
      try_except (enable_autofusing w password)
                 (λ e, match e with
                       | InvalidPassword => ret tt
                       | _ => raise e
                       end) in
    if has_pw && bool_decide (password = None) then
      password <- PasswordDialog_run w attempts ;;
      act <- gets active ;;
      if bool_decide (password = None) || negb act then ret tt
      else enable password
    else enable password
  else
    running <- disable_autofusing w ;;
    match running with
    | [] => ret tt
    | _ =>
        modify (emit (EvQuestion w (length running))) ;;;
        if answer then
          for_each running (λ f, fusion_stop f "Stop requested by user" false)
        else ret tt
    end.

(** [update_server_error], up to the popup; the repaint and the status
    bar text that follow are left out. *)
Definition update_server_error (self : FusionButton) : M FusionButton :=
  tup <- get_server_error ;;
  let changed := bool_decide (tup ≠ server_error self) in
  if negb changed then ret self else
  let self := mkFusionButton (self_id self) tup in
  let name := "CashFusionError;" +:+ self_id self in
  (match server_error self with
   | Some _ => modify (emit (EvShowPopupLabel name))
   | None => modify (emit (EvKillPopupLabel name))
   end) ;;;
  ret self.

(** ** [WalletSettingsDialog] *)

Definition set_storage (f : gmap string Z → gmap string Z) (x : Wallet) : Wallet :=
  mkWallet (has_password x) (check_password x) (weak_window x)
           (f (storage x)) (_fusions x) (_fusions_auto x).

(** [wallet.storage.get(key, dflt)] and [wallet.storage.put(key, value)] *)
Definition storage_get (w : wallet_id) (key : string) (dflt : Z) : M Z :=
  gets (λ σ, default dflt (storage (wallets σ w) !! key)).

Definition storage_put (w : wallet_id) (key : string) (value : Z) : M unit :=
  modify (set_wallets (λ ws, <[w := set_storage <[key := value]> (ws w)]> ws)).

Section WalletSettingsDialog.
(** Constants of fusion.py and plugin.py, which are not among the
    sources. *)
Variable DEFAULT_QUEUED_AUTOFUSE : Z.
Variable DEFAULT_SELF_FUSE : Z.

(** [edited_queued_autofuse]; [value] is [self.sb_queued_autofuse.value()].
    The closing [self.update()] redraws the dialog from the storage and
    touches neither the fusions nor the two keys written here. *)
Definition edited_queued_autofuse (w : wallet_id) (value : Z) : M unit :=
  prevval <- storage_get w "cashfusion_queued_autofuse" DEFAULT_QUEUED_AUTOFUSE ;;
  let numfuse := value in
  storage_put w "cashfusion_queued_autofuse" numfuse ;;;
  if bool_decide (prevval > numfuse)%Z then
    fs <- gets (λ σ, _fusions_auto (wallets σ w)) ;;
    for_each fs (λ f, fusion_stop f "User decreased queued-fuse limit" true)
  else ret tt.

(** [chose_self_fuse]; [data] is [self.combo_self_fuse.currentData()]. *)
Definition chose_self_fuse (w : wallet_id) (data : Z) : M unit :=
  let sel := data in
  oldsel <- storage_get w "cashfusion_self_fuse_players" DEFAULT_SELF_FUSE ;;
  storage_put w "cashfusion_self_fuse_players" sel ;;;
  if bool_decide (oldsel ≠ sel) then
    fs <- gets (λ σ, _fusions (wallets σ w)) ;;
    for_each fs (λ f, fusion_stop f "User changed self-fuse limit" true)
  else ret tt.
End WalletSettingsDialog.

(** ** [FusionsWindow] *)

Inductive MenuAction : Type :=
| ActCancel (fusions : list fid)
| ActViewTx (fusion : fid).

(** The closure [cancel] of [create_menu_active_fusions]. *)
Definition cancel (fusions : list fid) : M unit :=
  for_each fusions (λ fusion, fusion_stop fusion "Stop requested by user" false).

(** [create_menu_active_fusions]: the entries of the context menu for the
    selected rows; a row whose weak reference is dead is discarded. *)
Definition create_menu_active_fusions (selected : list fid) : M (list (string * MenuAction)) :=
  match selected with
  | [] => ret []
  | _ =>
      store <- gets fusions ;;
      let fusions := remove_dups (List.filter (λ f, bool_decide (is_Some (store !! f))) selected) in
      let statuses := omap (λ f, status <$> store !! f) fusions in
      let selection_of_1_fusion :=
        match fusions with
        | [f] => Some f
        | _ => None
        end in
      let has_live :=
        bool_decide (running ∈ statuses) || bool_decide (waiting ∈ statuses) in
      let cancel_entry :=
        if has_live then
          if bool_decide (running ∈ statuses)
          then [("Cancel (at end of round)", ActCancel fusions)]
          else [("Cancel", ActCancel fusions)]
        else [] in
      let view_entry :=
        match selection_of_1_fusion with
        | Some f =>
            match store !! f ≫= txid with
            | Some tx =>
                if bool_decide (tx = "") then [] else [("View tx", ActViewTx f)]
            | None => []
            end
        | None => []
        end in
      ret (cancel_entry ++ view_entry)%list
  end.

(** Choosing an entry of the menu; [_open_tx_for_fusion] only shows a
    window. *)
Definition trigger (a : MenuAction) : M unit :=
  match a with
  | ActCancel fusions => cancel fusions
  | ActViewTx _ => ret tt
  end.

(** ** Counting what a limit change stops *)

Definition has_status (store : gmap fid Fusion) (s : Status) (f : fid) : bool :=
  bool_decide (status <$> store !! f = Some s).

(** The fusions of [l] that went from waiting to stopped between two
    stores. *)
Definition newly_stopped (before after : gmap fid Fusion) (l : list fid) : list fid :=
  List.filter (λ f, has_status before waiting f && has_status after stopped f) l.

(** ** Example worlds *)

Definition password_is (pw : string) (given : option string) : bool :=
  bool_decide (given = Some pw).

(** The wallet library changing a wallet's password. *)
Definition change_password (w : wallet_id) (new : string) (σ : World) : World :=
  set_wallets
    (λ ws, <[w := mkWallet true (password_is new) (weak_window (ws w))
                          (storage (ws w)) (_fusions (ws w)) (_fusions_auto (ws w))]> ws) σ.

Definition example_wallet (window : option win_id) : Wallet :=
  mkWallet true (password_is "pw1") window
           {["cashfusion_queued_autofuse" := 3%Z; "cashfusion_self_fuse_players" := 1%Z]}
           [1; 2; 3; 4] [1; 2; 3].

Definition example_fusions : gmap fid Fusion :=
  {[ 1 := mkFusion waiting "" "A" None;
     2 := mkFusion running "" "A" None;
     3 := mkFusion waiting "" "A" None;
     4 := mkFusion waiting "" "A" None ]}.

(** Wallet ["A"] with password ["pw1"], an open window, three automatic
    fusions (two queued, one running) and a queued manual one. *)
Definition example_world : World :=
  mkWorld (λ _, example_wallet (Some 0)) {[ 0 := mkWindow "A" ]} ∅
          example_fusions {[ "A" := Some "pw1" ]} true (true, ("Ok", "")) [].

(** A wallet without a password, and no window. *)
Definition example_world_unprotected : World :=
  mkWorld (λ _, mkWallet false (λ _, true) None ∅ [] []) ∅ ∅ ∅ ∅ true
          (true, ("Ok", "")) [].

(** The same wallet after its window was closed and collected. *)
Definition example_world_no_window : World :=
  mkWorld (λ _, example_wallet (Some 0)) ∅ ∅
          example_fusions {[ "A" := Some "pw1" ]} true (true, ("Ok", "")) [].

(** The windows are closed and collected: a weak reference to one finds
    nothing from then on. *)
Definition collect_windows (σ : World) : World :=
  mkWorld (wallets σ) ∅ (password_cache σ) (fusions σ)
          (autofusing_wallets σ) (active σ) (last_server_status σ) (trace σ).

(** The password of wallet A was cached while its window was alive; the
    window has gone since, and the password of the wallet was changed. *)
Definition example_world_stale_cache : World :=
  change_password "A" "pw2"
    (collect_windows (cache_pw "A" "pw1" example_world).2).

(** ** Runs of publications *)

(** The controller publishing one status after the other. *)
Definition publish_all (pubs : list (bool * (string * string))) : M unit :=
  for_each pubs (λ p, notify_server_status p.1 p.2).

(** What of [pubs] goes out on the signal when [prev] went out before. *)
Fixpoint published (prev : bool * (string * string))
    (pubs : list (bool * (string * string))) : list (bool * (string * string)) :=
  match pubs with
  | [] => []
  | p :: ps =>
      if bool_decide (prev ≠ p) then p :: published p ps else published prev ps
  end.

(** No element of [l] equals the one before it, [prev] being before the
    first. *)
Fixpoint distinct_successive (prev : bool * (string * string))
    (l : list (bool * (string * string))) : bool :=
  match l with
  | [] => true
  | x :: l' => bool_decide (x ≠ prev) && distinct_successive x l'
  end.

Definition signal (p : bool * (string * string)) : Event :=
  EvServerStatusChanged p.1 p.2.

(** What a loop of stop requests leaves in the store. *)
Definition stop_all (reason : string) (not_if_running : bool)
    (l : list fid) (store : gmap fid Fusion) : gmap fid Fusion :=
  foldl (λ m f, alter (Fusion_stop reason not_if_running) f m) store l.

(** The round behind [f], if there still is one, has ended. *)
Definition settled (fs : gmap fid Fusion) (f : fid) : Prop :=
  ∀ h, fs !! f = Some h → terminal (status h) = true.

(** * The new-wallet wizard (ios_native/newwallet.py) *)

(** The values the wizard's pages pass along: strings, lists of words and
    flags. *)
Inductive PyVal : Type :=
| VStr (s : string)
| VList (l : list string)
| VBool (b : bool).

(** Python's truth value of such a value. *)
Definition truthy (v : PyVal) : bool :=
  match v with
  | VStr s => negb (bool_decide (s = ""))
  | VList l => negb (bool_decide (l = []))
  | VBool b => b
  end.

(** [_SetParam], on the [params] of the navigation controller: [_Params]
    reads them and [_SetParams] writes them back. *)
Definition _SetParam (paramName : string) (paramValue : PyVal)
    (params : gmap string PyVal) : gmap string PyVal :=
  let d := params in
  if negb (truthy paramValue) then delete paramName d
  else <[paramName := paramValue]> d.

(** The text fields and the error box of [NewWalletVC]. *)
Record NewWalletVC : Type := mkNewWalletVC {
  walletName : string;
  walletPw1 : string;
  walletPw2 : string;
  errMsg : string;
  errMsgView_hidden : bool }.

(** The messages of [doChkFormOk], as [_] gives them without a
    translation. *)
Definition err_name_empty : string :=
  "Wallet name is empty. Please enter a wallet name to proceed.".
Definition err_name_exists : string :=
  "A wallet with that name already exist. Please enter a different wallet name to proceed.".
Definition err_pw_empty : string :=
  "Wallet password is empty. Please set a wallet password to proceed. You can disable wallet password protection later if you wish.".
Definition err_pw_mismatch : string :=
  "Wallet passwords do not match. Please confirm the password you wish to set for your wallet by entering the same password twice.".

(** What [NewWalletSeed2.onNext] ends in. *)
Inductive OnNext : Type :=
| Dismiss
| SeedMismatch
| MissingParam
| GenerateWallet (wallet_name wallet_pass wallet_seed : PyVal).

Section NewWallet.
(** [utils.pathsafeify] and [ElectrumGui.check_wallet_exists] are not among
    the sources; [split], [strip] and [lower] are the methods of Python's
    [str]. *)
Variable pathsafeify : string → string.
Variable check_wallet_exists : string → bool.
Variable split : string → list string.
Variable strip lower : string → string.

(** [NewWalletVC.doChkFormOk] *)
Definition doChkFormOk (self : NewWalletVC) : bool * NewWalletVC :=
  let name := pathsafeify (walletName self) in
  let msg :=
    if bool_decide (name = "") then err_name_empty
    else if check_wallet_exists name then err_name_exists
    else if bool_decide (walletPw1 self = "") then err_pw_empty
    else if bool_decide (walletPw1 self ≠ walletPw2 self) then err_pw_mismatch
    else "" in
  (bool_decide (msg = ""),
   mkNewWalletVC name (walletPw1 self) (walletPw2 self)
                 (if bool_decide (msg = "") then errMsg self else msg)
                 (bool_decide (msg = ""))).

(** [NewWalletVC.prepareForSegue_sender_] *)
Definition NewWalletVC_prepareForSegue (self : NewWalletVC)
    (params : gmap string PyVal) : gmap string PyVal :=
  _SetParam "WalletPass" (VStr (walletPw2 self))
    (_SetParam "WalletName" (VStr (walletName self)) params).

(** [NewWalletSeed1.shouldPerformSegueWithIdentifier_sender_]: [bool(self.seed)] *)
Definition NewWalletSeed1_shouldPerformSegue (seed : option string) : bool :=
  match seed with
  | Some s => negb (bool_decide (s = ""))
  | None => false
  end.

(** [NewWalletSeed1.prepareForSegue_sender_], towards a [NewWalletSeed2]:
    the new parameters, and the [seed] and [seedList] of the next page. *)
Definition NewWalletSeed1_prepareForSegue (seed : string)
    (params : gmap string PyVal) : gmap string PyVal * (string * list string) :=
  let s := seed in
  let sl := split seed in
  (_SetParam "seed_list" (VList sl) (_SetParam "seed" (VStr s) params), (s, sl)).

(** [NewWalletSeed2.onNext]; [text] is [self.seedtv.text]. *)
Definition onNext (isDone : bool) (seedList : list string) (text : string)
    (params : gmap string PyVal) : OnNext :=
  if isDone then Dismiss
  else if bool_decide (seedList ≠ split (lower (strip text))) then SeedMismatch
  else
    match params !! "WalletName", params !! "WalletPass", params !! "seed" with
    | Some wallet_name, Some wallet_pass, Some wallet_seed =>
        GenerateWallet wallet_name wallet_pass wallet_seed
    | _, _, _ => MissingParam
    end.
End NewWallet.

(** The pages of [OnBoardingWizard] are known by their pointers. *)

(** [pageViewController_viewControllerBeforeViewController_] *)
Definition pageViewController_viewControllerBeforeViewController_
    (vcs : list nat) (vc : nat) : option nat :=
  foldl (λ b4 iv, if bool_decide (iv.2 = vc) && bool_decide (0 < iv.1)
                  then vcs !! (iv.1 - 1) else b4)
        None (imap pair vcs).

(** [pageViewController_viewControllerAfterViewController_] *)
Definition pageViewController_viewControllerAfterViewController_
    (vcs : list nat) (vc : nat) : option nat :=
  foldl (λ aft iv, if bool_decide (iv.2 = vc) && bool_decide (iv.1 + 1 < length vcs)
                   then vcs !! (iv.1 + 1) else aft)
        None (imap pair vcs).

(** * The addresses tab (ios_native/addresses.py) *)

Definition _TYPES : list string := ["Any"; "Receiving"; "Change"].
Definition _STATUSES : list string := ["All"; "Funded"; "Unused"; "Used"].

(** What the tab reads of an [electroncash.address.Address]; [Address_str]
    is [str(address)]. *)
Record Address : Type := mkAddress {
  to_storage_string : string;
  to_ui_string : string;
  Address_str : string }.

(** [AddressData.Entry] *)
Record Entry : Type := mkEntry {
  address : Address;
  addr_str : string;
  addr_idx : nat;
  label : string;
  balance_str : string;
  fiat_balance_str : string;
  num_tx : nat;
  is_frozen : bool;
  balance : Z;
  is_change : bool;
  is_used : bool }.

(** What the tab asks of the wallet, of the exchange rates and of the
    gui, none of which is among the sources. *)
Record IosWallet : Type := mkIosWallet {
  get_receiving_addresses : list Address;
  get_change_addresses : list Address;
  get_address_history : Address → list string;
  wallet_is_used : Address → bool;
  get_addr_balance : Address → Z * Z * Z;
  labels : gmap string string;
  wallet_is_frozen : Address → bool }.

(** [value_str] is [fx.value_str(balance, fx.exchange_rate())]. *)
Record Fx : Type := mkFx {
  get_fiat_address_config : bool;
  value_str : Z → string;
  get_currency : string }.

Record Parent : Type := mkParent {
  parent_wallet : option IosWallet;
  daemon_fx : option (option Fx);       (* [daemon], and its [fx] *)
  format_amount : Z → string }.

Record AddressData : Type := mkAddressData {
  show_fx : bool;
  master : list (list (list Entry)) }.

(** [AddressData.clear] *)
Definition AddressData_clear : AddressData :=
  mkAddressData false (replicate (length _TYPES) (replicate (length _STATUSES) [])).

(** The key of the closing sort, [[x.balance, x.num_tx, 0-x.addr_idx]],
    and Python's order on such lists. *)
Definition sort_key (x : Entry) : Z * Z * Z :=
  (balance x, Z.of_nat (num_tx x), (0 - Z.of_nat (addr_idx x))%Z).

Definition key_lt (a b : Z * Z * Z) : Prop :=
  (a.1.1 < b.1.1)%Z
  ∨ (a.1.1 = b.1.1 ∧ ((a.1.2 < b.1.2)%Z ∨ (a.1.2 = b.1.2 ∧ (a.2 < b.2)%Z))).

Global Instance key_lt_dec a b : Decision (key_lt a b).
Proof. unfold key_lt. apply _. Defined.

(** [l.sort(key = ..., reverse = True)]: descending, and stable, so that
    entries with equal keys keep their order. *)
Fixpoint insert_desc (x : Entry) (l : list Entry) : list Entry :=
  match l with
  | [] => [x]
  | y :: l' =>
      if decide (key_lt (sort_key x) (sort_key y)) then y :: insert_desc x l'
      else x :: l
  end.

Definition sort_reverse (l : list Entry) : list Entry := foldr insert_desc [] l.

(** [self.master[t][s].append(item)] *)
Definition master_append (t s : nat) (item : Entry)
    (m : list (list (list Entry))) : list (list (list Entry)) :=
  alter (alter (λ l : list Entry, (l ++ [item])%list) s) t m.

(** The item of one address, as the loop of [refresh] builds it. *)
Definition make_item (parent : Parent) (wallet : IosWallet) (fx : option Fx)
    (is_change : bool) (n : nat) (address : Address) : Entry :=
  let num := length (get_address_history wallet address) in
  let is_used := wallet_is_used wallet address in
  let balance :=
    let '(c, u, x) := get_addr_balance wallet address in (c + u + x)%Z in
  let address_text := to_ui_string address in
  let label := default "" (labels wallet !! to_storage_string address) in
  let balance_text := format_amount parent balance in
  let is_frozen := wallet_is_frozen wallet address in
  let fiat_balance :=
    match fx with
    | Some fx => value_str fx balance +:+ " " +:+ get_currency fx
    | None => ""
    end in
  mkEntry address address_text n label balance_text fiat_balance num
          is_frozen balance is_change is_used.

(** The appends of one round of the loop. *)
Definition file_item (item : Entry) (m : list (list (list Entry))) :
    list (list (list Entry)) :=
  let tc := if is_change item then 2 else 1 in
  let m := master_append 0 0 item m in
  let m := master_append tc 0 item m in
  let m := if bool_decide (balance item ≠ 0%Z)
           then master_append tc 1 item (master_append 0 1 item m) else m in
  if bool_decide (num_tx item ≠ 0)
  then master_append tc 3 item (master_append 0 3 item m)
  else master_append tc 2 item (master_append 0 2 item m).

(** [AddressData.refresh]; it clears first, so what it leaves depends on
    the gui alone.  The timing and the log line are left out. *)
Definition AddressData_refresh (parent : Parent) : AddressData :=
  match parent_wallet parent with
  | None => AddressData_clear
  | Some wallet =>
      let receiving_addresses := get_receiving_addresses wallet in
      let change_addresses := get_change_addresses wallet in
      let fx :=
        match daemon_fx parent with
        | Some (Some fx) => if get_fiat_address_config fx then Some fx else None
        | _ => None
        end in
      let sequences :=
        match change_addresses with [] => [false] | _ => [false; true] end in
      let filed :=
        foldl (λ m is_change,
                 let addr_list :=
                   if is_change : bool then change_addresses else receiving_addresses in
                 foldl (λ m na, file_item (make_item parent wallet fx is_change na.1 na.2) m)
                       m (imap pair addr_list))
              (master AddressData_clear) sequences in
      mkAddressData (bool_decide (is_Some fx)) (map (map sort_reverse) filed)
  end.

(** The list under a type and a status, empty where there is none. *)
Definition bucket (d : AddressData) (t s : nat) : list Entry :=
  default [] (master d !! t ≫= (.!! s)).

(** The items of the wallet's addresses in the order [refresh] meets them:
    the receiving ones, then the change ones, each numbered within its
    list. *)
Definition wallet_entries (parent : Parent) (wallet : IosWallet) : list Entry :=
  let fx :=
    match daemon_fx parent with
    | Some (Some fx) => if get_fiat_address_config fx then Some fx else None
    | _ => None
    end in
  (imap (make_item parent wallet fx false) (get_receiving_addresses wallet)
   ++ imap (make_item parent wallet fx true) (get_change_addresses wallet))%list.

(** Whether an item belongs under type [t] and status [s]. *)
Definition in_bucket (t s : nat) (e : Entry) : bool :=
  (bool_decide (t = 0) || bool_decide (t = 1) && negb (is_change e)
   || bool_decide (t = 2) && is_change e)
  && (bool_decide (s = 0) || bool_decide (s = 1) && bool_decide (balance e ≠ 0%Z)
      || bool_decide (s = 2) && bool_decide (num_tx e = 0)
      || bool_decide (s = 3) && bool_decide (num_tx e ≠ 0)).

(** A 3 by 4 table given cell by cell. *)
Definition grid (f : nat → nat → list Entry) : list (list (list Entry)) :=
  map (λ t, map (f t) (seq 0 4)) (seq 0 3).

(** [x] does not come after [y]: its key is not the smaller one. *)
Definition key_ge (x y : Entry) : Prop := ¬ key_lt (sort_key x) (sort_key y).

(** Python's [l[i]] for an integer [i]: a negative index counts from the
    end, and [None] stands for the [IndexError]. *)
Definition py_getitem {A} (l : list A) (i : Z) : option A :=
  if decide (0 ≤ i)%Z then l !! Z.to_nat i
  else if decide (- Z.of_nat (length l) ≤ i)%Z
       then l !! Z.to_nat (Z.of_nat (length l) + i)
       else None.

Definition ModeNormal : Z := 0.
Definition ModePicker : Z := 1.

(** The properties of an [AddressesVC] that its methods below use;
    [addrData] is what [utils.nspy_get_byname(self, 'addrData')] gives,
    [on_picked] whether a callback of that name is registered,
    [has_tableView] whether the view is loaded, and [reloads] counts the
    calls of [tableView.reloadData()]. *)
Record AddressesVC : Type := mkAddressesVC {
  needsRefresh : bool;
  blockRefresh : bool;
  mode : Z;
  comboL_selection : Z;
  comboR_selection : Z;
  addrData : option AddressData;
  on_picked : bool;
  has_tableView : bool;
  reloads : nat }.

(** [addrData.master[self.comboL.selection][self.comboR.selection]], with
    [None] for any of the exceptions the methods catch. *)
Definition selected_section (self : AddressesVC) : option (list Entry) :=
  d ← addrData self;
  row ← py_getitem (master d) (comboL_selection self);
  py_getitem row (comboR_selection self).

(** [numberOfSectionsInTableView_] *)
Definition numberOfSectionsInTableView_ (self : AddressesVC) : nat :=
  match selected_section self with
  | Some _ => 1
  | None => 0
  end.

(** [tableView_numberOfRowsInSection_] *)
Definition tableView_numberOfRowsInSection_ (self : AddressesVC) : nat :=
  match addrData self with
  | Some _ =>
      match selected_section self with
      | Some section => max 1 (length section)
      | None => 0
      end
  | None => 0
  end.

(** What a tap on a row leads to. *)
Inductive Tapped : Type :=
| TapIgnored
| TapPushDetail (entry : Entry)
| TapPicked (entry : Entry).

(** [tableView_didSelectRowAtIndexPath_]; [row] is [indexPath.row], which
    the table view never gives negative. *)
Definition tableView_didSelectRowAtIndexPath_ (self : AddressesVC) (row : nat) : Tapped :=
  match selected_section self with
  | None => TapIgnored
  | Some section =>
      if bool_decide (length section ≤ row)%nat then TapIgnored
      else
        match section !! row with
        | None => TapIgnored
        | Some entry =>
            if bool_decide (mode self = ModeNormal) then TapPushDetail entry
            else if on_picked self then TapPicked entry else TapIgnored
        end
  end.

Definition set_refresh_flags (needs block : bool) (self : AddressesVC) : AddressesVC :=
  mkAddressesVC needs block (mode self) (comboL_selection self)
                (comboR_selection self) (addrData self) (on_picked self)
                (has_tableView self) (reloads self).

(** [updateAddressesFromWallet]: an [AddressData] is made when there is
    none, and refreshed. *)
Definition updateAddressesFromWallet (parent : Parent) (self : AddressesVC) : AddressesVC :=
  mkAddressesVC (needsRefresh self) (blockRefresh self) (mode self)
                (comboL_selection self) (comboR_selection self)
                (Some (AddressData_refresh parent)) (on_picked self)
                (has_tableView self) (reloads self).

(** [AddressesVC.refresh] *)
Definition AddressesVC_refresh (parent : Parent) (self : AddressesVC) : AddressesVC :=
  let self := set_refresh_flags true (blockRefresh self) self in
  if blockRefresh self then self
  else
    let self := updateAddressesFromWallet parent self in
    let self :=
      if has_tableView self
      then mkAddressesVC (needsRefresh self) (blockRefresh self) (mode self)
                         (comboL_selection self) (comboR_selection self)
                         (addrData self) (on_picked self) (has_tableView self)
                         (S (reloads self))
      else self in
    set_refresh_flags false (blockRefresh self) self.

(** [doRefreshIfNeeded] *)
Definition doRefreshIfNeeded (parent : Parent) (self : AddressesVC) : AddressesVC :=
  if needsRefresh self then AddressesVC_refresh parent self else self.

(** [needUpdate]: the new state, and whether a [doRefreshIfNeeded] was
    queued for the main thread. *)
Definition needUpdate (self : AddressesVC) : AddressesVC * bool :=
  if needsRefresh self then (self, false)
  else (set_refresh_flags true (blockRefresh self) self, true).

(** [textFieldDidBeginEditing_] *)
Definition textFieldDidBeginEditing_ (self : AddressesVC) : AddressesVC :=
  set_refresh_flags (needsRefresh self) true self.

(** What [EntryForAddress] raises. *)
Inductive ios_exn : Type :=
| ValueError (msg : string)
| FromStringError.

(** [EntryForAddress]; [vc] is [ElectrumGui.gui.addressesVC], and
    [from_string] is [Address.from_string], with [None] where it raises. *)
Definition EntryForAddress (from_string : string → option Address)
    (vc : option AddressesVC) (address_ : string) : ios_exn + option Entry :=
  match vc with
  | None => inl (ValueError "EntryForAddress: requires a valid ElectrumGui.addressesVC instance!")
  | Some vc =>
      match from_string address_ with
      | None => inl FromStringError
      | Some address' =>
          match addrData vc with
          | None => inr None
          | Some addrData =>
              match master addrData !! 0 ≫= (.!! 0) with
              | Some l =>
                  inr (List.find (λ entry, bool_decide
                         (Address_str (address entry) = Address_str address')) l)
              | None => inr None
              end
          end
      end
  end.

(** ** An example wallet *)

Definition example_address (s : string) : Address := mkAddress s s s.

Definition example_ios_wallet : IosWallet :=
  mkIosWallet [example_address "r0"; example_address "r1"] [example_address "c0"]
    (λ a, if bool_decide (to_storage_string a = "r1") then [] else ["tx"])
    (λ a, negb (bool_decide (to_storage_string a = "r1")))
    (λ a, if bool_decide (to_storage_string a = "r0") then (5, 0, 0)%Z else (0, 0, 0)%Z)
    {[ "r0" := "savings" ]} (λ _, false).

Definition example_parent : Parent :=
  mkParent (Some example_ios_wallet) None (λ _, "").

Definition example_vc : AddressesVC :=
  mkAddressesVC false true ModeNormal 0 1 None false true 0.

(** The calls that ask an [AddressesVC] to refresh, and a run of them. *)
Inductive VcCall : Type :=
| CallRefresh
| CallNeedUpdate
| CallDoRefreshIfNeeded.

Global Instance VcCall_eq_dec : EqDecision VcCall.
Proof. solve_decision. Defined.

Definition vc_call (parent : Parent) (self : AddressesVC) (c : VcCall) : AddressesVC :=
  match c with
  | CallRefresh => AddressesVC_refresh parent self
  | CallNeedUpdate => (needUpdate self).1
  | CallDoRefreshIfNeeded => doRefreshIfNeeded parent self
  end.

Section LabelEditing.

(** [ElectrumGui.on_label_edited] is not among the sources.  What it does to
    the tab is given by the calls it makes on it (the tab is connected to
    [sigAddresses] through [needUpdate] in [initWithMode_]) and by whether
    it returns ([true]) or raises ([false]).  [strip] is [str.strip]. *)
Variable on_label_edited : Address → string → list VcCall * bool.
Variable strip : string → string.

(** [textFieldDidEndEditing_].  [tf_dict] is what is stored under that name
    ([None] when nothing is: the lookup on it raises, before anything is
    changed), [tf_ptr] is [tf.ptr.value], [tf_text] the text of the field,
    and [parent] the gui while the label is stored.  The result is the tab
    and whether the method ran to its end, where refreshing is unblocked and
    a [doRefreshIfNeeded] is queued; an exception leaves the tab as it is
    by then, blocked. *)
Definition textFieldDidEndEditing_ (parent : Parent)
    (tf_dict : option (gmap nat Address)) (tf_ptr : nat) (tf_text : string)
    (self : AddressesVC) : AddressesVC * bool :=
  match tf_dict with
  | None => (self, false)
  | Some d =>
      let '(self, returned) :=
        match d !! tf_ptr with
        | Some addr =>
            let new_label := strip tf_text in
            let '(calls, returned) := on_label_edited addr new_label in
            (foldl (vc_call parent) self calls, returned)
        | None => (self, true)
        end in
      if returned
      then (set_refresh_flags (needsRefresh self) false self, true)
      else (self, false)
  end.

End LabelEditing.

(** Unfolds the monad so that a method runs on the world at hand. *)
Ltac run_monad :=
  unfold bind, ret, raise, gets, modify, try_except in *; simpl in *.

(** * Properties *)

(** ** The loop of stop requests *)

Lemma Fusion_stop_idemp reason nir h :
  Fusion_stop reason nir (Fusion_stop reason nir h) = Fusion_stop reason nir h.
Proof.
  unfold Fusion_stop. destruct h as [[] ? ? ?], nir; reflexivity.
Qed.

Lemma Fusion_stop_status reason nir h :
  status (Fusion_stop reason nir h) =
  match status h with
  | waiting => stopped
  | running => if nir then running else stopping
  | s => s
  end.
Proof.
  unfold Fusion_stop. destruct h as [[] ? ? ?], nir; reflexivity.
Qed.

Lemma stop_all_lookup reason nir l (store : gmap nat Fusion) f :
  stop_all reason nir l store !! f =
  if decide (f ∈ l) then Fusion_stop reason nir <$> store !! f else store !! f.
Proof.
  revert store. induction l as [|g l IH]; intros store.
  - destruct (decide (f ∈ [])) as [H|H]; [by apply elem_of_nil in H | done].
  - change (stop_all reason nir (g :: l) store)
      with (stop_all reason nir l (alter (Fusion_stop reason nir) g store)).
    rewrite IH. destruct (decide (f = g)) as [->|Hne].
    + rewrite lookup_alter_eq, (decide_True (P := g ∈ g :: l))
        by (apply elem_of_cons; by left).
      destruct (decide (g ∈ l)); [|done].
      destruct (store !! g) as [h|]; [|done].
      simpl. by rewrite Fusion_stop_idemp.
    + rewrite lookup_alter_ne by done.
      destruct (decide (f ∈ l)) as [Hin|Hin].
      * by rewrite decide_True by (apply elem_of_cons; by right).
      * by rewrite decide_False by (apply not_elem_of_cons; by split).
Qed.

Lemma for_each_stop reason nir l σ :
  for_each l (λ f, fusion_stop f reason nir) σ =
  (inr tt,
   mkWorld (wallets σ) (windows σ) (password_cache σ)
           (stop_all reason nir l (fusions σ))
           (autofusing_wallets σ) (active σ) (last_server_status σ)
           (trace σ ++ map (λ f, EvStop f reason nir) l)).
Proof.
  revert σ. induction l as [|g l IH]; intros σ.
  - simpl. unfold ret. rewrite app_nil_r. by destruct σ.
  - change (for_each (g :: l) (λ f, fusion_stop f reason nir) σ)
      with (for_each l (λ f, fusion_stop f reason nir)
              (set_fusions (alter (Fusion_stop reason nir) g)
                           (emit (EvStop g reason nir) σ))).
    rewrite IH. simpl. by rewrite <- app_assoc.
Qed.

(** ** The credential cache *)

Lemma get_cached_pw_no_password σ w :
  has_password (wallets σ w) = false →
  get_cached_pw w σ = (inr (false, None), σ).
Proof.
  intros Hp. unfold get_cached_pw, wallet_has_password. run_monad.
  by rewrite Hp.
Qed.

Lemma get_cached_pw_cached σ w win pw :
  has_password (wallets σ w) = true →
  (window_for_wallet w σ).1 = inr (Some win) →
  password_cache σ !! w = Some pw →
  get_cached_pw w σ =
  (inr (true, if check_password (wallets σ w) (Some pw) then Some pw else None), σ).
Proof.
  intros Hp Hw Hc.
  unfold get_cached_pw, wallet_has_password, window_for_wallet,
    gui_get_cached_password, wallet_check_password in *.
  run_monad. rewrite Hp. simpl.
  destruct (weak_window (wallets σ w)) as [r|]; [|discriminate].
  destruct (windows σ !! r); [|discriminate].
  rewrite Hc. by destruct (check_password (wallets σ w) (Some pw)).
Qed.

(** C1 (as stated it fails): a password is cached for the protected wallet
    A, and the password of the wallet is changed behind the cache; the
    window of the wallet has been collected meanwhile, and the query raises
    instead of answering [(True, None)]. *)
Lemma get_cached_pw_stale_raises :
  has_password (wallets example_world_stale_cache "A") = true
  ∧ password_cache example_world_stale_cache !! "A" = Some "pw1"
  ∧ check_password (wallets example_world_stale_cache "A") (Some "pw1") = false
  ∧ (get_cached_pw "A" example_world_stale_cache).1
    = inl (RuntimeError "Wallet A lacks a valid ElectrumWindow instance!")
  ∧ (get_cached_pw "A" example_world_stale_cache).1 ≠ inr (true, None).
Proof. repeat split; try reflexivity. discriminate. Qed.

(** C1 (amended): a wallet that requires no password always gets
    [(False, None)]; while the window of a protected wallet is alive, a
    cached password is checked against the wallet before it is returned, so
    once the wallet's password has been changed behind the cache the answer
    is [(True, None)], not the stale password. *)
Theorem get_cached_pw_revalidates (σ : World) (w : string) :
  (has_password (wallets σ w) = false →
   get_cached_pw w σ = (inr (false, None), σ))
  ∧ (∀ win pw,
       has_password (wallets σ w) = true →
       (window_for_wallet w σ).1 = inr (Some win) →
       password_cache σ !! w = Some pw →
       get_cached_pw w σ =
       (inr (true, if check_password (wallets σ w) (Some pw)
                   then Some pw else None), σ))
  ∧ (∀ win pw1 pw2,
       (window_for_wallet w σ).1 = inr (Some win) →
       pw1 ≠ pw2 →
       let σ1 := (cache_pw w pw1 σ).2 in
       let σ2 := change_password w pw2 σ1 in
       password_cache σ2 !! w = Some pw1
       ∧ get_cached_pw w σ2 = (inr (true, None), σ2)).
Proof.
  split; [apply get_cached_pw_no_password|].
  split; [apply get_cached_pw_cached|].
  intros win pw1 pw2 Hw Hne σ1 σ2.
  assert (Hc : password_cache σ2 !! w = Some pw1).
  { subst σ1 σ2. unfold cache_pw, window_for_wallet, gui_cache_password in *.
    run_monad.
    destruct (weak_window (wallets σ w)) as [r|]; [|discriminate].
    destruct (windows σ !! r); [|discriminate].
    simpl. by rewrite lookup_insert_eq. }
  split; [done|].
  assert (Hσ1 : wallets σ1 = wallets σ ∧ windows σ1 = windows σ).
  { subst σ1. unfold cache_pw, window_for_wallet, gui_cache_password in *.
    run_monad.
    destruct (weak_window (wallets σ w)) as [r|]; [|discriminate].
    by destruct (windows σ !! r). }
  destruct Hσ1 as [Hws Hwin].
  rewrite (get_cached_pw_cached σ2 w win pw1); [ | | | done].
  - subst σ2. simpl. rewrite fn_lookup_insert. simpl.
    unfold password_is. rewrite bool_decide_eq_false_2; [done | congruence].
  - subst σ2. simpl. by rewrite fn_lookup_insert.
  - subst σ2. unfold window_for_wallet in *. run_monad.
    rewrite fn_lookup_insert. simpl. by rewrite Hws, Hwin.
Qed.

Lemma get_cached_pw_revalidates_witness :
  get_cached_pw "B" example_world_unprotected
  = (inr (false, None), example_world_unprotected)
  ∧ get_cached_pw "A" (cache_pw "A" "pw1" example_world).2
    = (inr (true, Some "pw1"), (cache_pw "A" "pw1" example_world).2)
  ∧ get_cached_pw "A" (change_password "A" "pw2" (cache_pw "A" "pw1" example_world).2)
    = (inr (true, None),
       change_password "A" "pw2" (cache_pw "A" "pw1" example_world).2).
Proof.
  split; [|split].
  - exact (proj1 (get_cached_pw_revalidates example_world_unprotected "B") eq_refl).
  - exact (proj1 (proj2 (get_cached_pw_revalidates
                           (cache_pw "A" "pw1" example_world).2 "A"))
             (mkWindow "A") "pw1" eq_refl eq_refl eq_refl).
  - apply (proj2 (proj2 (get_cached_pw_revalidates example_world "A"))
             (mkWindow "A") "pw1" "pw2"); [reflexivity | discriminate].
Defined.

(** C6 (as stated it fails): a protected wallet whose window is gone makes
    the query raise. *)
Lemma get_cached_pw_raises :
  (get_cached_pw "A" example_world_no_window).1
  = inl (RuntimeError "Wallet A lacks a valid ElectrumWindow instance!").
Proof. reflexivity. Qed.

(** C6 (amended): the query raises only [RuntimeError], and exactly when
    the wallet is protected and has no live window; a failed re-validation
    is caught.  In every other case it returns, leaves the world as it
    was, the boolean is [wallet.has_password()], and the password slot is
    either [None] or the cached password, which the wallet accepts. *)
Theorem get_cached_pw_outcome (σ : World) (w : string) :
  match get_cached_pw w σ with
  | (inl e, σ') =>
      σ' = σ ∧ e = RuntimeError (lacks_window_msg w)
      ∧ has_password (wallets σ w) = true
      ∧ (window_for_wallet w σ).1 = inr None
  | (inr (b, pw), σ') =>
      σ' = σ ∧ b = has_password (wallets σ w)
      ∧ (b = false ∨ ∃ win, (window_for_wallet w σ).1 = inr (Some win))
      ∧ match pw with
        | Some p =>
            b = true ∧ password_cache σ !! w = Some p
            ∧ check_password (wallets σ w) (Some p) = true
        | None => True
        end
  end.
Proof.
  unfold get_cached_pw, wallet_has_password, window_for_wallet,
    gui_get_cached_password, wallet_check_password.
  run_monad.
  destruct (has_password (wallets σ w)) eqn:Hp; simpl; [|by auto].
  destruct (weak_window (wallets σ w)) as [r|]; simpl; [|by auto].
  destruct (windows σ !! r) as [win|]; simpl; [|by auto].
  destruct (password_cache σ !! w) as [p|] eqn:Hc; simpl; [|by eauto 6].
  destruct (check_password (wallets σ w) (Some p)) eqn:Hck; simpl; eauto 8.
Qed.

(** C9: when the wallet's window is gone, [cache_pw] stores nothing and
    raises nothing: it returns with the world exactly as it was. *)
Theorem cache_pw_dead_window (σ : World) (w password : string) :
  (window_for_wallet w σ).1 = inr None →
  cache_pw w password σ = (inr tt, σ).
Proof.
  unfold cache_pw, window_for_wallet. run_monad. intros Hw.
  destruct (weak_window (wallets σ w)) as [r|]; [|done].
  by destruct (windows σ !! r).
Qed.

Lemma cache_pw_dead_window_witness :
  cache_pw "A" "pw1" example_world_no_window = (inr tt, example_world_no_window).
Proof. apply cache_pw_dead_window. reflexivity. Defined.

(** ** The autofuse registry *)

Lemma is_autofusing_run σ w :
  is_autofusing w σ = (inr (bool_decide (is_Some (autofusing_wallets σ !! w))), σ).
Proof. reflexivity. Qed.

Lemma disable_autofusing_run σ w :
  disable_autofusing w σ =
  (inr (List.filter (in_flight σ) (_fusions (wallets σ w))),
   set_autofusing_wallets (delete w) σ).
Proof. reflexivity. Qed.

Lemma enable_autofusing_bad σ w password :
  check_password (wallets σ w) password = false →
  enable_autofusing w password σ = (inl InvalidPassword, σ).
Proof.
  intros Hck. unfold enable_autofusing, wallet_check_password. run_monad.
  by rewrite Hck.
Qed.

Lemma enable_autofusing_good σ w password :
  check_password (wallets σ w) password = true →
  ∃ σ', enable_autofusing w password σ = (inr tt, σ')
        ∧ wallets σ' = wallets σ ∧ fusions σ' = fusions σ
        ∧ trace σ' = trace σ
        ∧ autofusing_wallets σ' = <[w := password]> (autofusing_wallets σ).
Proof.
  intros Hck.
  unfold enable_autofusing, wallet_check_password, cache_pw, window_for_wallet,
    gui_cache_password.
  run_monad. rewrite Hck. simpl.
  destruct password as [p|]; simpl;
    [|by eexists; split; [reflexivity|]].
  destruct (weak_window (wallets σ w)) as [r|]; simpl;
    [|by eexists; split; [reflexivity|]].
  destruct (windows σ !! r); simpl; by eexists; split; [reflexivity|].
Qed.

(** C2: when the wallet is autofusing, a password-change notification
    tries to enable autofusing again with the new password; when the
    wallet rejects it, autofusing is switched off and the diagnostic is
    printed.  Either way the hook returns normally, and a wallet that is
    still autofusing afterwards is so with a password the wallet accepts. *)
Theorem on_new_password_heals (σ : World) (window : Window) (old new : option string) :
  (is_autofusing (wallet window) σ).1 = inr true →
  let w := wallet window in
  let r := on_new_password window old new σ in
  r.1 = inr tt
  ∧ wallets r.2 = wallets σ
  ∧ fusions r.2 = fusions σ
  ∧ (if check_password (wallets σ w) new
     then autofusing_wallets r.2 !! w = Some new
          ∧ trace r.2 = (trace σ ++ [EvPrintError w "updated autofusion password"])%list
     else (is_autofusing w r.2).1 = inr false
          ∧ trace r.2 =
            (trace σ ++ [EvPrintError w
               "disabled autofusion due to incorrect password - BUG"])%list)
  ∧ (∀ pw, autofusing_wallets r.2 !! w = Some pw →
           check_password (wallets r.2 w) pw = true).
Proof.
  intros Haf w r. rewrite is_autofusing_run in Haf. simpl in Haf.
  injection Haf as Haf. fold w in Haf.
  destruct (check_password (wallets σ w) new) eqn:Hck.
  - destruct (enable_autofusing_good σ w new Hck)
      as (σ' & Hrun & Hws & Hfs & Htr & Haw).
    assert (Hr : r = (inr tt, emit (EvPrintError w "updated autofusion password") σ')).
    { subst r. unfold on_new_password. fold w.
      unfold bind at 1. rewrite is_autofusing_run, Haf.
      unfold try_except, bind. rewrite Hrun. reflexivity. }
    rewrite Hr. simpl. rewrite Hws, Hfs, Htr, Haw, lookup_insert_eq.
    repeat split; try done. by intros pw [= <-].
  - assert (Hr : r = (inr tt,
                      emit (EvPrintError w
                              "disabled autofusion due to incorrect password - BUG")
                           (set_autofusing_wallets (delete w) σ))).
    { subst r. unfold on_new_password. fold w.
      unfold bind at 1. rewrite is_autofusing_run, Haf.
      unfold try_except, bind at 1.
      rewrite (enable_autofusing_bad σ w new Hck).
      unfold bind. rewrite disable_autofusing_run. reflexivity. }
    rewrite Hr. simpl. rewrite lookup_delete_eq.
    repeat split; try done.
Qed.

Lemma on_new_password_heals_witness :
  let r := on_new_password (mkWindow "A") (Some "pw1") (Some "pw2") example_world in
  r.1 = inr tt
  ∧ (is_autofusing "A" r.2).1 = inr false
  ∧ trace r.2 =
    [EvPrintError "A" "disabled autofusion due to incorrect password - BUG"].
Proof.
  pose proof (on_new_password_heals example_world (mkWindow "A")
                (Some "pw1") (Some "pw2") eq_refl) as H.
  cbv zeta in H. destruct H as (H1 & _ & _ & H4 & _).
  split; [exact H1|]. exact H4.
Defined.

(** C7: disabling autofuse marks the wallet as not autofusing and hands
    back the wallet's rounds that are still in flight, every queued and
    every running one among them, and changes no round: the store of
    fusions and the trace of calls are as before.  In [toggle_autofuse]
    the rounds are told to stop only when the user answers [Yes]; with
    [No] (or nothing in flight) every round is left as it was. *)
Theorem disable_autofusing_keeps_rounds
    (σ : World) (w : string) (attempts : list string) (answer : bool) :
  (is_autofusing w σ).1 = inr true →
  let d := disable_autofusing w σ in
  let handles := List.filter (in_flight σ) (_fusions (wallets σ w)) in
  let t := toggle_autofuse w attempts answer σ in
  d.1 = inr handles
  ∧ (is_autofusing w d.2).1 = inr false
  ∧ fusions d.2 = fusions σ
  ∧ trace d.2 = trace σ
  ∧ (∀ f h, f ∈ _fusions (wallets σ w) → fusions σ !! f = Some h →
            status h = waiting ∨ status h = running → f ∈ handles)
  ∧ t.1 = inr tt
  ∧ (is_autofusing w t.2).1 = inr false
  ∧ fusions t.2 =
    (if answer then stop_all "Stop requested by user" false handles (fusions σ)
     else fusions σ).
Proof.
  intros Haf d handles t. subst d t.
  rewrite is_autofusing_run in Haf. simpl in Haf. injection Haf as Haf.
  rewrite disable_autofusing_run. simpl. rewrite lookup_delete_eq.
  split; [done|]. split; [done|]. split; [done|]. split; [done|].
  split.
  { intros f h Hin Hf Hst. subst handles.
    apply list_elem_of_In, filter_In. split; [by apply list_elem_of_In|].
    unfold in_flight. rewrite Hf. by destruct Hst as [-> | ->]. }
  assert (Ht : toggle_autofuse w attempts answer σ =
               (inr tt,
                match handles with
                | [] => set_autofusing_wallets (delete w) σ
                | _ =>
                    let σ1 := emit (EvQuestion w (length handles))
                                   (set_autofusing_wallets (delete w) σ) in
                    if answer
                    then (for_each handles
                            (λ f, fusion_stop f "Stop requested by user" false) σ1).2
                    else σ1
                end)).
  { unfold toggle_autofuse. unfold bind at 1. rewrite is_autofusing_run, Haf.
    cbn [negb]. unfold bind at 1. rewrite disable_autofusing_run. fold handles.
    destruct handles as [|f l]; [reflexivity|].
    unfold bind at 1, modify at 1. destruct answer; [|reflexivity].
    rewrite for_each_stop. reflexivity. }
  rewrite Ht. cbn [fst snd]. split; [done|].
  destruct handles as [|f l].
  - simpl. rewrite lookup_delete_eq. by destruct answer.
  - cbv zeta. destruct answer.
    + rewrite for_each_stop. simpl. by rewrite lookup_delete_eq.
    + simpl. by rewrite lookup_delete_eq.
Qed.

Lemma disable_autofusing_keeps_rounds_witness :
  (disable_autofusing "A" example_world).1 = inr [1; 2; 3; 4]
  ∧ fusions (disable_autofusing "A" example_world).2 = fusions example_world
  ∧ fusions (toggle_autofuse "A" [] false example_world).2 = fusions example_world.
Proof.
  pose proof (disable_autofusing_keeps_rounds example_world "A" [] false eq_refl) as H.
  cbv zeta in H. destruct H as (H1 & _ & H3 & _ & _ & _ & _ & H8).
  split; [exact H1|]. split; [exact H3 | exact H8].
Defined.

(** ** Server status *)

Lemma notify_server_status_run σ p :
  notify_server_status p.1 p.2 σ =
  (inr tt,
   if bool_decide (last_server_status σ ≠ p)
   then emit (signal p) (set_last_server_status p σ) else σ).
Proof.
  destruct p as [b tup]. unfold notify_server_status. run_monad.
  by case_bool_decide.
Qed.

Lemma publish_all_run pubs σ :
  publish_all pubs σ =
  (inr tt,
   mkWorld (wallets σ) (windows σ) (password_cache σ) (fusions σ)
           (autofusing_wallets σ) (active σ)
           (default (last_server_status σ)
                    (last (published (last_server_status σ) pubs)))
           (trace σ ++ map signal (published (last_server_status σ) pubs))).
Proof.
  revert σ. induction pubs as [|p ps IH]; intros σ.
  - simpl. rewrite app_nil_r. by destruct σ.
  - change (publish_all (p :: ps) σ)
      with ((notify_server_status p.1 p.2 ;;; publish_all ps) σ).
    unfold bind. rewrite notify_server_status_run.
    cbn [published]. case_bool_decide as Hne; rewrite IH.
    + cbn [last_server_status wallets windows password_cache fusions
           autofusing_wallets active trace emit set_last_server_status].
      rewrite <- app_assoc, last_cons. simpl.
      by destruct (last (published p ps)).
    + reflexivity.
Qed.

Lemma published_distinct prev pubs :
  distinct_successive prev (published prev pubs) = true.
Proof.
  revert prev. induction pubs as [|p ps IH]; intros prev; [done|].
  simpl. case_bool_decide as Hne; [|apply IH].
  simpl. rewrite IH, andb_true_r. apply bool_decide_eq_true. congruence.
Qed.

Lemma published_sublist prev pubs : published prev pubs `sublist_of` pubs.
Proof.
  revert prev. induction pubs as [|p ps IH]; intros prev; [done|].
  simpl. case_bool_decide; [apply sublist_skip | apply sublist_cons]; apply IH.
Qed.

(** C5: a publication equal to the last published status is suppressed
    and changes nothing, one that differs goes out once; so over any run
    of publications what goes out on the signal is a subsequence of them
    in which no status equals the one before it (nor, for the first, the
    one published before the run).  The slot of a [FusionButton] in turn
    does nothing when the error it is told about is the one it shows. *)
Theorem server_status_deduplicated
    (σ : World) (pubs : list (bool * (string * string))) :
  let r := publish_all pubs σ in
  let out := published (last_server_status σ) pubs in
  (∀ p, p = last_server_status σ →
        notify_server_status p.1 p.2 σ = (inr tt, σ))
  ∧ (∀ p, p ≠ last_server_status σ →
          notify_server_status p.1 p.2 σ =
          (inr tt, emit (signal p) (set_last_server_status p σ)))
  ∧ r.1 = inr tt
  ∧ trace r.2 = (trace σ ++ map signal out)%list
  ∧ last_server_status r.2 = default (last_server_status σ) (last out)
  ∧ out `sublist_of` pubs
  ∧ distinct_successive (last_server_status σ) out = true
  ∧ (∀ self, (get_server_error σ).1 = inr (server_error self) →
             update_server_error self σ = (inr self, σ)).
Proof.
  intros r out. subst r out. rewrite publish_all_run. cbn [fst snd trace last_server_status].
  split.
  { intros p ->. rewrite notify_server_status_run.
    by rewrite bool_decide_eq_false_2 by (intros H; by apply H). }
  split.
  { intros p Hne. rewrite notify_server_status_run.
    by rewrite bool_decide_eq_true_2 by congruence. }
  split; [done|]. split; [done|]. split; [done|].
  split; [apply published_sublist|].
  split; [apply published_distinct|].
  intros self Herr. unfold update_server_error, get_server_error in *.
  run_monad. injection Herr as Herr. rewrite Herr.
  by rewrite bool_decide_eq_false_2 by (intros H; by apply H).
Qed.

Lemma server_status_deduplicated_witness :
  let pubs := [(true, ("Ok", "")); (false, ("Down", "refused"));
               (false, ("Down", "refused")); (true, ("Ok", ""))] in
  notify_server_status true ("Ok", "") example_world = (inr tt, example_world)
  ∧ trace (publish_all pubs example_world).2
    = [EvServerStatusChanged false ("Down", "refused");
       EvServerStatusChanged true ("Ok", "")]
  ∧ update_server_error (mkFusionButton "1" None) example_world
    = (inr (mkFusionButton "1" None), example_world).
Proof.
  intros pubs.
  pose proof (server_status_deduplicated example_world pubs) as H.
  cbv zeta in H. destruct H as (H1 & _ & _ & H4 & _ & _ & _ & H8).
  split; [exact (H1 (true, ("Ok", "")) eq_refl)|].
  split; [exact H4|].
  exact (H8 (mkFusionButton "1" None) eq_refl).
Defined.

(** ** Wallet settings *)

Lemma chose_self_fuse_run dflt σ w data :
  chose_self_fuse dflt w data σ =
  let σ1 := set_wallets
              (λ ws, <[w := set_storage <["cashfusion_self_fuse_players" := data]> (ws w)]> ws) σ in
  if bool_decide (default dflt (storage (wallets σ w) !! "cashfusion_self_fuse_players") ≠ data)
  then for_each (_fusions (wallets σ w))
         (λ f, fusion_stop f "User changed self-fuse limit" true) σ1
  else (inr tt, σ1).
Proof.
  unfold chose_self_fuse, storage_get. run_monad.
  case_bool_decide; [|done].
  unfold set_wallets at 1. cbn [wallets]. by rewrite fn_lookup_insert.
Qed.

Lemma edited_queued_autofuse_run dflt σ w value :
  edited_queued_autofuse dflt w value σ =
  let σ1 := set_wallets
              (λ ws, <[w := set_storage <["cashfusion_queued_autofuse" := value]> (ws w)]> ws) σ in
  if bool_decide (default dflt (storage (wallets σ w) !! "cashfusion_queued_autofuse") > value)%Z
  then for_each (_fusions_auto (wallets σ w))
         (λ f, fusion_stop f "User decreased queued-fuse limit" true) σ1
  else (inr tt, σ1).
Proof.
  unfold edited_queued_autofuse, storage_get. run_monad.
  case_bool_decide; [|done].
  unfold set_wallets at 1. cbn [wallets]. by rewrite fn_lookup_insert.
Qed.

Lemma stop_all_not_waiting reason l (store : gmap nat Fusion) f h :
  store !! f = Some h → status h ≠ waiting →
  stop_all reason true l store !! f = Some h.
Proof.
  intros Hf Hst. rewrite stop_all_lookup, Hf. case_decide; [|done].
  simpl. f_equal. unfold Fusion_stop. by destruct (status h).
Qed.

Lemma stop_all_waiting reason nir l (store : gmap nat Fusion) f h :
  f ∈ l → store !! f = Some h → status h = waiting →
  status <$> stop_all reason nir l store !! f = Some stopped.
Proof.
  intros Hin Hf Hst. rewrite stop_all_lookup, Hf, decide_True by done.
  simpl. by rewrite Fusion_stop_status, Hst.
Qed.

Lemma newly_stopped_all reason nir l (store : gmap nat Fusion) :
  newly_stopped store (stop_all reason nir l store) l
  = List.filter (has_status store waiting) l.
Proof.
  unfold newly_stopped. apply filter_ext_in. intros f Hin.
  apply list_elem_of_In in Hin.
  unfold has_status. case_bool_decide as Hw; [|done].
  destruct (store !! f) as [h|] eqn:Hf; [|done]. simpl in Hw.
  injection Hw as Hw.
  by rewrite (stop_all_waiting reason nir l store f h), bool_decide_eq_true_2.
Qed.

(** C3 (as stated it fails): with the limit lowered from 3 to 1 and two
    automatic fusions queued, both are stopped, not just the one in
    excess. *)
Lemma edited_queued_autofuse_stops_more :
  let before := fusions example_world in
  let after := fusions (edited_queued_autofuse 4 "A" 1 example_world).2 in
  let auto := _fusions_auto (wallets example_world "A") in
  let K := length (List.filter (has_status before waiting) auto) in
  storage (wallets example_world "A") !! "cashfusion_queued_autofuse" = Some 3%Z
  ∧ K = 2
  ∧ trace (edited_queued_autofuse 4 "A" 1 example_world).2
    = [EvStop 1 "User decreased queued-fuse limit" true;
       EvStop 2 "User decreased queued-fuse limit" true;
       EvStop 3 "User decreased queued-fuse limit" true]
  ∧ newly_stopped before after auto = [1; 3]
  ∧ length (newly_stopped before after auto) ≠ K - 1.
Proof. vm_compute. repeat split; discriminate. Qed.

(** C3 (amended): when the limit of queued fusions is lowered, a stop with
    [not_if_running] is requested on every automatic fusion of the wallet;
    every queued one is thereby stopped, all of them and in no particular
    order, and no other fusion changes, so no running fusion is stopped. *)
Theorem edited_queued_autofuse_stops_queued
    (DEFAULT_QUEUED_AUTOFUSE : Z) (σ : World) (w : string) (value : Z) :
  let prevval := default DEFAULT_QUEUED_AUTOFUSE
                   (storage (wallets σ w) !! "cashfusion_queued_autofuse") in
  let auto := _fusions_auto (wallets σ w) in
  let r := edited_queued_autofuse DEFAULT_QUEUED_AUTOFUSE w value σ in
  (prevval > value)%Z →
  r.1 = inr tt
  ∧ storage (wallets r.2 w) !! "cashfusion_queued_autofuse" = Some value
  ∧ trace r.2 =
    (trace σ ++ map (λ f, EvStop f "User decreased queued-fuse limit" true) auto)%list
  ∧ (∀ f h, f ∈ auto → fusions σ !! f = Some h → status h = waiting →
            status <$> fusions r.2 !! f = Some stopped)
  ∧ newly_stopped (fusions σ) (fusions r.2) auto
    = List.filter (has_status (fusions σ) waiting) auto
  ∧ (∀ f h, fusions σ !! f = Some h → status h ≠ waiting →
            fusions r.2 !! f = Some h)
  ∧ (∀ f, f ∉ auto → fusions r.2 !! f = fusions σ !! f).
Proof.
  intros prevval auto r Hgt. subst r.
  rewrite edited_queued_autofuse_run. cbv zeta. fold prevval auto.
  rewrite bool_decide_eq_true_2 by done. rewrite for_each_stop.
  cbn [fst snd wallets fusions trace set_wallets].
  rewrite fn_lookup_insert. cbn [storage set_storage]. rewrite lookup_insert_eq.
  split; [done|]. split; [done|]. split; [done|].
  split; [intros f h; apply stop_all_waiting|].
  split; [apply newly_stopped_all|].
  split; [intros f h; apply stop_all_not_waiting|].
  intros f Hf. rewrite stop_all_lookup. by rewrite decide_False.
Qed.

Lemma edited_queued_autofuse_stops_queued_witness :
  let r := edited_queued_autofuse 4 "A" 1 example_world in
  r.1 = inr tt
  ∧ trace r.2 = [EvStop 1 "User decreased queued-fuse limit" true;
                 EvStop 2 "User decreased queued-fuse limit" true;
                 EvStop 3 "User decreased queued-fuse limit" true]
  ∧ newly_stopped (fusions example_world) (fusions r.2) [1; 2; 3] = [1; 3].
Proof.
  pose proof (edited_queued_autofuse_stops_queued 4 example_world "A" 1) as H.
  cbv zeta in H. destruct H as (H1 & _ & H3 & _ & H5 & _); [reflexivity|].
  split; [exact H1|]. split; [exact H3 | exact H5].
Defined.

(** C10: choosing a number of self-fuse players other than the stored one
    requests a stop with [not_if_running] on every fusion of the wallet,
    the manually started ones as well as the automatic ones: the queued
    ones are stopped and the others, the running ones among them, stay as
    they are.  Choosing the stored number again requests no stop and
    changes no fusion. *)
Theorem chose_self_fuse_stops_all
    (DEFAULT_SELF_FUSE : Z) (σ : World) (w : string) (data : Z) :
  let oldsel := default DEFAULT_SELF_FUSE
                  (storage (wallets σ w) !! "cashfusion_self_fuse_players") in
  let all := _fusions (wallets σ w) in
  let r := chose_self_fuse DEFAULT_SELF_FUSE w data σ in
  r.1 = inr tt
  ∧ storage (wallets r.2 w) !! "cashfusion_self_fuse_players" = Some data
  ∧ (oldsel ≠ data →
       trace r.2 =
       (trace σ ++ map (λ f, EvStop f "User changed self-fuse limit" true) all)%list
       ∧ (∀ f, f ∈ all →
               EvStop f "User changed self-fuse limit" true ∈ trace r.2)
       ∧ (∀ f h, f ∈ all → fusions σ !! f = Some h → status h = waiting →
                 status <$> fusions r.2 !! f = Some stopped)
       ∧ (∀ f h, fusions σ !! f = Some h → status h ≠ waiting →
                 fusions r.2 !! f = Some h))
  ∧ (oldsel = data → fusions r.2 = fusions σ ∧ trace r.2 = trace σ).
Proof.
  intros oldsel all r. subst r.
  rewrite chose_self_fuse_run. cbv zeta. fold oldsel all.
  case_bool_decide as Hsel.
  - rewrite for_each_stop.
    cbn [fst snd wallets fusions trace set_wallets].
    rewrite fn_lookup_insert. cbn [storage set_storage]. rewrite lookup_insert_eq.
    split; [done|]. split; [done|]. split; [|done].
    intros _. split; [done|].
    split.
    { intros f Hf. apply elem_of_app. right.
      by apply (list_elem_of_fmap_2 (λ f, EvStop f "User changed self-fuse limit" true)). }
    split; [intros f h; apply stop_all_waiting|].
    intros f h; apply stop_all_not_waiting.
  - cbn [fst snd wallets fusions trace set_wallets].
    rewrite fn_lookup_insert. cbn [storage set_storage]. rewrite lookup_insert_eq.
    split; [done|]. split; [done|]. split; [done|]. done.
Qed.

Lemma chose_self_fuse_stops_all_witness :
  trace (chose_self_fuse 1 "A" 2 example_world).2
  = [EvStop 1 "User changed self-fuse limit" true;
     EvStop 2 "User changed self-fuse limit" true;
     EvStop 3 "User changed self-fuse limit" true;
     EvStop 4 "User changed self-fuse limit" true]
  ∧ fusions (chose_self_fuse 1 "A" 1 example_world).2 = fusions example_world.
Proof.
  split.
  - pose proof (chose_self_fuse_stops_all 1 example_world "A" 2) as H.
    cbv zeta in H. destruct H as (_ & _ & H & _).
    destruct H as (H & _); [discriminate | exact H].
  - pose proof (chose_self_fuse_stops_all 1 example_world "A" 1) as H.
    cbv zeta in H. destruct H as (_ & _ & _ & H).
    destruct H as (H & _); [reflexivity | exact H].
Defined.

(** ** Stopping a round *)

Lemma stopped_stays h h' :
  status h = stopped → rtc handle_step h h' → status h' = stopped.
Proof.
  intros Hst Hsteps. induction Hsteps as [h|h1 h2 h3 Hstep _ IH]; [done|].
  apply IH. destruct Hstep as [h1 h2 [Hnext _]|h1 reason nir].
  - rewrite Hst in Hnext. discriminate.
  - by rewrite Fusion_stop_status, Hst.
Qed.

Lemma stopping_ends_stopped h h' :
  status h = stopping → rtc handle_step h h' →
  status h' = stopping ∨ status h' = stopped.
Proof.
  intros Hst Hsteps. induction Hsteps as [h|h1 h2 h3 Hstep Hrest IH]; [by left|].
  destruct Hstep as [h1 h2 [Hnext _]|h1 reason nir].
  - rewrite Hst in Hnext. destruct (status h2) eqn:Hs2; try discriminate.
    right. by apply (stopped_stays h2).
  - apply IH. by rewrite Fusion_stop_status, Hst.
Qed.

Lemma cancel_run l σ :
  cancel l σ =
  (inr tt,
   mkWorld (wallets σ) (windows σ) (password_cache σ)
           (stop_all "Stop requested by user" false l (fusions σ))
           (autofusing_wallets σ) (active σ) (last_server_status σ)
           (trace σ ++ map (λ f, EvStop f "Stop requested by user" false) l)).
Proof. apply for_each_stop. Qed.

(** The fusions the menu acts on: the selected rows whose fusion is still
    there, each once. *)
Lemma selected_fusions_elem (store : gmap nat Fusion) selected f :
  f ∈ remove_dups (List.filter (λ f, bool_decide (is_Some (store !! f))) selected)
  ↔ f ∈ selected ∧ is_Some (store !! f).
Proof.
  rewrite elem_of_remove_dups, list_elem_of_In, filter_In, <- list_elem_of_In.
  by rewrite bool_decide_eq_true.
Qed.

(** C8: cancelling the selected fusions from the menu turns a waiting one
    into a stopped one, and whatever the engine or later stop requests do
    afterwards it stays stopped, so it never runs.  A running one is only
    flagged as stopping (the menu says so: "at end of round"); from there
    the engine can only take it to stopped. *)
Theorem stop_waiting_never_runs
    (σ : World) (selected : list nat) (f : nat) (h : Fusion) :
  f ∈ selected → fusions σ !! f = Some h →
  status h = waiting ∨ status h = running →
  let fs := remove_dups
              (List.filter (λ f, bool_decide (is_Some (fusions σ !! f))) selected) in
  let h' := Fusion_stop "Stop requested by user" false h in
  (∃ label menu,
     (create_menu_active_fusions selected σ).1
     = inr ((label, ActCancel fs) :: menu)
     ∧ (status h = running → label = "Cancel (at end of round)"))
  ∧ f ∈ fs
  ∧ (trigger (ActCancel fs) σ).1 = inr tt
  ∧ fusions (trigger (ActCancel fs) σ).2 !! f = Some h'
  ∧ (status h = waiting →
       status h' = stopped
       ∧ ∀ h'', rtc handle_step h' h'' →
                status h'' = stopped ∧ status h'' ≠ running)
  ∧ (status h = running →
       status h' = stopping
       ∧ (∀ h'', engine_step h' h'' → status h'' = stopped)
       ∧ ∀ h'', rtc handle_step h' h'' →
                status h'' = stopping ∨ status h'' = stopped).
Proof.
  intros Hsel Hf Hst fs h'.
  assert (Hfs : f ∈ fs) by (apply selected_fusions_elem; eauto).
  assert (Hstatus : status h ∈ omap (λ f, status <$> fusions σ !! f) fs).
  { apply list_elem_of_omap. exists f. by rewrite Hf. }
  split.
  { unfold create_menu_active_fusions.
    destruct selected as [|s0 sel]; [by apply elem_of_nil in Hsel|].
    run_monad. fold fs.
    set (statuses := omap (λ f, status <$> fusions σ !! f) fs) in *.
    destruct (bool_decide (running ∈ statuses)) eqn:Hrun; simpl.
    - by eexists _, _.
    - rewrite bool_decide_eq_false in Hrun.
      destruct Hst as [Hw|Hr]; [|by rewrite Hr in Hstatus].
      rewrite Hw in Hstatus. rewrite bool_decide_eq_true_2 by done.
      eexists _, _. split; [done|]. intros Hr. by rewrite Hr in Hw. }
  split; [done|].
  cbn [trigger]. rewrite cancel_run. cbn [fst snd fusions].
  split; [done|].
  split.
  { by rewrite stop_all_lookup, Hf, decide_True. }
  split.
  - intros Hw.
    assert (Hs : status h' = stopped)
      by (subst h'; by rewrite Fusion_stop_status, Hw).
    split; [done|]. intros h'' Hsteps.
    pose proof (stopped_stays _ _ Hs Hsteps) as Hs''.
    split; [done|]. by rewrite Hs''.
  - intros Hr.
    assert (Hs : status h' = stopping)
      by (subst h'; by rewrite Fusion_stop_status, Hr).
    split; [done|]. split.
    + intros h'' [Hnext _]. rewrite Hs in Hnext.
      by destruct (status h'').
    + intros h''. by apply stopping_ends_stopped.
Qed.

Lemma stop_waiting_never_runs_witness :
  (create_menu_active_fusions [1; 2] example_world).1
  = inr [("Cancel (at end of round)", ActCancel [1; 2])]
  ∧ status <$> fusions (trigger (ActCancel [1; 2]) example_world).2 !! 1
    = Some stopped
  ∧ status <$> fusions (trigger (ActCancel [1; 2]) example_world).2 !! 2
    = Some stopping.
Proof.
  split; [reflexivity|]. split.
  - pose proof (stop_waiting_never_runs example_world [1; 2] 1
                  (mkFusion waiting "" "A" None)) as H.
    cbv zeta in H.
    destruct H as (_ & _ & _ & H & _);
      [apply list_elem_of_In; by left | reflexivity | by left |].
    change (fusions (trigger (ActCancel [1; 2]) example_world).2 !! 1
            = Some (mkFusion stopped "Stop requested by user" "A" None)) in H.
    by rewrite H.
  - pose proof (stop_waiting_never_runs example_world [1; 2] 2
                  (mkFusion running "" "A" None)) as H.
    cbv zeta in H.
    destruct H as (_ & _ & _ & H & _);
      [apply list_elem_of_In; right; by left | reflexivity | by right |].
    change (fusions (trigger (ActCancel [1; 2]) example_world).2 !! 2
            = Some (mkFusion stopping "Stop requested by user" "A" None)) in H.
    by rewrite H.
Defined.

(** ** Closing a wallet *)

Lemma settled_step fs k fs' k' f :
  shutdown_step (fs, k) (fs', k') → settled fs f → settled fs' f.
Proof.
  intros Hstep Hset. inversion Hstep as
    [fs0 g reason nir k0|fs0 g timeout k0 Hg|fs0 g t k0|fs0 g h1 h2 k0 Hg Heng];
    subst; try done.
  - intros h Hh. destruct (decide (f = g)) as [->|Hne].
    + rewrite lookup_alter_eq in Hh.
      destruct (fs !! g) as [h0|] eqn:Hg; [|done]. simpl in Hh.
      injection Hh as <-. specialize (Hset h0 Hg).
      rewrite Fusion_stop_status. by destruct (status h0).
    + rewrite lookup_alter_ne in Hh by done. by apply Hset.
  - intros h Hh. destruct (decide (f = g)) as [->|Hne].
    + specialize (Hset h1 Hg). destruct Heng as [Hnext _].
      by destruct (status h1).
    + rewrite lookup_insert_ne in Hh by done. by apply Hset.
Qed.

Lemma pending_or_settled_step (targets : list nat) st st' :
  shutdown_step st st' →
  (∀ f, f ∈ targets → CallJoin f None ∈ st.2 ∨ settled st.1 f) →
  (∀ f, f ∈ targets → CallJoin f None ∈ st'.2 ∨ settled st'.1 f).
Proof.
  intros Hstep Hinv f Hf. destruct st as [fs k], st' as [fs' k'].
  destruct (Hinv f Hf) as [Hpend|Hset];
    [|right; by eapply settled_step].
  simpl in *. inversion Hstep as
    [fs0 g reason nir k0|fs0 g timeout k0 Hg|fs0 g t k0|fs0 g h1 h2 k0 Hg Heng];
    subst.
  - left. apply elem_of_cons in Hpend as [?|?]; [discriminate | done].
  - apply elem_of_cons in Hpend as [Heq|?]; [|by left].
    injection Heq as -> _. by right.
  - left. apply elem_of_cons in Hpend as [?|?]; [discriminate | done].
  - by left.
Qed.

Lemma pending_or_settled_run (targets : list nat) st st' :
  rtc shutdown_step st st' →
  (∀ f, f ∈ targets → CallJoin f None ∈ st.2 ∨ settled st.1 f) →
  (∀ f, f ∈ targets → CallJoin f None ∈ st'.2 ∨ settled st'.1 f).
Proof.
  induction 1 as [|st1 st2 st3 Hstep _ IH]; [done|].
  intros Hinv. apply IH. by eapply pending_or_settled_step.
Qed.

(** The engine can bring any round to an end. *)
Lemma round_can_end fs f k :
  ∃ fs', rtc shutdown_step (fs, k) (fs', k) ∧ settled fs' f.
Proof.
  destruct (fs !! f) as [h|] eqn:Hf.
  2:{ exists fs. split; [done|]. intros h Hh. congruence. }
  destruct h as [st extra tw tx].
  assert (Hend : ∀ fs0 s,
             engine_next s complete = true ∨ engine_next s stopped = true →
             fs0 !! f = Some (mkFusion s extra tw tx) →
             ∃ fs', rtc shutdown_step (fs0, k) (fs', k) ∧ settled fs' f).
  { intros fs0 s Hnext Hf0.
    destruct Hnext as [Hn|Hn].
    - exists (<[f := mkFusion complete extra tw tx]> fs0). split.
      + apply rtc_once. by eapply step_engine.
      + intros h. rewrite lookup_insert_eq. by intros [= <-].
    - exists (<[f := mkFusion stopped extra tw tx]> fs0). split.
      + apply rtc_once. by eapply step_engine.
      + intros h. rewrite lookup_insert_eq. by intros [= <-]. }
  destruct st.
  - destruct (Hend (<[f := mkFusion running extra tw tx]> fs) running)
      as (fs' & Hrun & Hset); [by left | by rewrite lookup_insert_eq |].
    exists fs'. split; [|done].
    eapply rtc_l; [|exact Hrun]. by eapply step_engine.
  - by apply (Hend fs running); [left|].
  - by apply (Hend fs stopping); [right|].
  - exists fs. split; [done|]. intros h. rewrite Hf. by intros [= <-].
  - exists fs. split; [done|]. intros h. rewrite Hf. by intros [= <-].
  - exists fs. split; [done|]. intros h. rewrite Hf. by intros [= <-].
Qed.

Lemma joins_can_finish l fs :
  ∃ fs', rtc shutdown_step (fs, map (λ f, CallJoin f None) l) (fs', []).
Proof.
  revert fs. induction l as [|f l IH]; intros fs; [by exists fs|].
  destruct (round_can_end fs f (map (λ f, CallJoin f None) (f :: l)))
    as (fs1 & Hrun & Hset).
  destruct (IH fs1) as (fs' & Hrest).
  exists fs'. etrans; [exact Hrun|].
  eapply rtc_l; [|exact Hrest]. simpl. by apply step_join.
Qed.

Lemma stops_run reason nir l fs k :
  rtc shutdown_step (fs, (map (λ f, CallStop f reason nir) l ++ k)%list)
                    (stop_all reason nir l fs, k).
Proof.
  revert fs. induction l as [|f l IH]; intros fs; [done|].
  eapply rtc_l; [apply step_stop|]. apply IH.
Qed.

(** C4: closing a wallet's window first requests a stop on every fusion
    that [remove_wallet] handed over and then joins every one of them,
    each join without a timeout.  However the rounds advance in the
    meantime, once the last join has returned every one of these fusions
    has ended (stopped, complete or failed); and the joins do return,
    since every round can be brought to an end. *)
Theorem on_close_window_joins_all (σ : World) (window : Window) :
  let targets := List.filter (in_flight σ) (_fusions (wallets σ (wallet window))) in
  let prog := (map (λ f, CallStop f "Closing wallet" false) targets
               ++ map (λ f, CallJoin f None) targets)%list in
  on_close_window window σ = (inr prog, σ)
  ∧ (∀ fs', rtc shutdown_step (fusions σ, prog) (fs', []) →
            ∀ f h, f ∈ targets → fs' !! f = Some h → terminal (status h) = true)
  ∧ (∃ fs', rtc shutdown_step (fusions σ, prog) (fs', [])).
Proof.
  intros targets prog. split; [|split].
  - unfold on_close_window, remove_wallet. run_monad. fold targets.
    subst prog. by destruct targets.
  - intros fs' Hrun f h Hf Hh.
    pose proof (pending_or_settled_run targets _ _ Hrun) as Hinv.
    destruct (Hinv) with (f := f) as [Hpend|Hset]; [|done| |by apply Hset].
    + intros g Hg. left. simpl. subst prog. apply elem_of_app. right.
      by apply (list_elem_of_fmap_2 (λ f, CallJoin f None)).
    + by apply elem_of_nil in Hpend.
  - destruct (joins_can_finish targets
                (stop_all "Closing wallet" false targets (fusions σ)))
      as (fs' & Hjoins).
    exists fs'. etrans; [apply stops_run | exact Hjoins].
Qed.

Lemma on_close_window_joins_all_witness :
  ∃ fs', rtc shutdown_step
           (fusions example_world,
            (map (λ f, CallStop f "Closing wallet" false) [1; 2; 3; 4]
             ++ map (λ f, CallJoin f None) [1; 2; 3; 4])%list)
           (fs', [])
         ∧ ∀ f h, f ∈ [1; 2; 3; 4] → fs' !! f = Some h →
                  terminal (status h) = true.
Proof.
  pose proof (on_close_window_joins_all example_world (mkWindow "A")) as H.
  cbv zeta in H. destruct H as (_ & Hsafe & fs' & Hrun).
  exists fs'. split; [exact Hrun|]. exact (Hsafe fs' Hrun).
Defined.

(** * Properties of the new-wallet wizard *)

Open Scope list_scope.
Open Scope nat_scope.

(** ** Parameters passed between the pages *)

Lemma SetParam_same paramName v (params : gmap string PyVal) :
  _SetParam paramName v params !! paramName = if truthy v then Some v else None.
Proof.
  unfold _SetParam. destruct (truthy v); simpl;
    [apply lookup_insert_eq | apply lookup_delete_eq].
Qed.

Lemma SetParam_other paramName key v (params : gmap string PyVal) :
  key ≠ paramName → _SetParam paramName v params !! key = params !! key.
Proof.
  intros Hne. unfold _SetParam. destruct (truthy v); simpl;
    [by apply lookup_insert_ne | by apply lookup_delete_ne].
Qed.

(** X1: [_SetParam] stores a value that is true in Python's sense and
    removes the key for one that is not (an empty string, an empty list,
    [False]); no other parameter changes. *)
Theorem SetParam_lookup (paramName key : string) (v : PyVal) (params : gmap string PyVal) :
  _SetParam paramName v params !! paramName = (if truthy v then Some v else None)
  ∧ (key ≠ paramName → _SetParam paramName v params !! key = params !! key).
Proof.
  unfold _SetParam. destruct (truthy v); simpl; split.
  - apply lookup_insert_eq.
  - intros Hne. by apply lookup_insert_ne.
  - apply lookup_delete_eq.
  - intros Hne. by apply lookup_delete_ne.
Qed.

Lemma SetParam_lookup_witness :
  _SetParam "WalletPass" (VStr "") {[ "WalletPass" := VStr "old" ]} !! "WalletPass" = None
  ∧ _SetParam "seed" (VStr "a b") {[ "WalletPass" := VStr "old" ]} !! "WalletPass"
    = Some (VStr "old").
Proof.
  split.
  - exact (proj1 (SetParam_lookup "WalletPass" "x" (VStr "")
                    {[ "WalletPass" := VStr "old" ]})).
  - exact (proj2 (SetParam_lookup "seed" "WalletPass" (VStr "a b")
                    {[ "WalletPass" := VStr "old" ]}) ltac:(discriminate)).
Defined.

(** ** The form of the first page *)

Lemma doChkFormOk_msg pathsafeify check_wallet_exists self :
  (doChkFormOk pathsafeify check_wallet_exists self).1 = true ↔
  pathsafeify (walletName self) ≠ ""
  ∧ check_wallet_exists (pathsafeify (walletName self)) = false
  ∧ walletPw1 self ≠ ""
  ∧ walletPw1 self = walletPw2 self.
Proof.
  unfold doChkFormOk. cbn [fst].
  destruct (bool_decide_reflect (pathsafeify (walletName self) = "")) as [Hn|Hn].
  { split; [intros H; by apply bool_decide_eq_true in H | by intros [? _]]. }
  destruct (check_wallet_exists (pathsafeify (walletName self))) eqn:Hex.
  { split; [intros H; by apply bool_decide_eq_true in H | by intros (_ & ? & _)]. }
  destruct (bool_decide_reflect (walletPw1 self = "")) as [Hp|Hp].
  { split; [intros H; by apply bool_decide_eq_true in H | by intros (_ & _ & ? & _)]. }
  destruct (bool_decide_reflect (walletPw1 self ≠ walletPw2 self)) as [Hm|Hm].
  { split; [intros H; by apply bool_decide_eq_true in H | by intros (_ & _ & _ & ?)]. }
  split; [|done]. intros _. repeat split; try done.
  destruct (decide (walletPw1 self = walletPw2 self)); [done | by destruct Hm].
Qed.

(** X2: the form is accepted exactly when the path-safe wallet name is not
    empty and not taken, the password is not empty and both password
    fields agree.  An accepted form hides the error box; a rejected one
    shows it with a message, and either way the name field holds the
    path-safe name afterwards. *)
Theorem doChkFormOk_accepts
    (pathsafeify : string → string) (check_wallet_exists : string → bool)
    (self : NewWalletVC) :
  let r := doChkFormOk pathsafeify check_wallet_exists self in
  (r.1 = true ↔
     pathsafeify (walletName self) ≠ ""
     ∧ check_wallet_exists (pathsafeify (walletName self)) = false
     ∧ walletPw1 self ≠ ""
     ∧ walletPw1 self = walletPw2 self)
  ∧ errMsgView_hidden r.2 = r.1
  ∧ walletName r.2 = pathsafeify (walletName self)
  ∧ (r.1 = false → errMsg r.2 ≠ "")
  ∧ (r.1 = true → errMsg r.2 = errMsg self).
Proof.
  intros r. split; [apply doChkFormOk_msg|].
  subst r. unfold doChkFormOk. cbn [fst snd errMsgView_hidden walletName errMsg].
  split; [done|]. split; [done|].
  repeat match goal with
         | |- context [bool_decide ?P] => destruct (bool_decide_reflect P)
         | |- context [if check_wallet_exists ?n then _ else _] =>
             destruct (check_wallet_exists n)
         end; split; intros; try done.
Qed.

Lemma doChkFormOk_accepts_witness :
  let r := doChkFormOk (λ s, s) (λ _, false) (mkNewWalletVC "w" "pw" "px" "" true) in
  r.1 = false ∧ errMsg r.2 ≠ "".
Proof.
  intros r. split; [reflexivity|].
  exact (proj1 (proj2 (proj2 (proj2
           (doChkFormOk_accepts (λ s, s) (λ _, false)
              (mkNewWalletVC "w" "pw" "px" "" true))))) eq_refl).
Defined.

(** ** From the form to the new wallet *)

Lemma onNext_generates_inv split strip lower isDone seedList text
    (params : gmap string PyVal) n p s :
  onNext split strip lower isDone seedList text params = GenerateWallet n p s →
  params !! "WalletName" = Some n ∧ params !! "WalletPass" = Some p
  ∧ params !! "seed" = Some s.
Proof.
  unfold onNext. destruct isDone; [done|]. case_bool_decide; [done|].
  destruct (params !! "WalletName"), (params !! "WalletPass"), (params !! "seed");
    try done.
  by intros [= -> -> ->].
Qed.

Lemma onNext_generates_intro split strip lower seedList text
    (params : gmap string PyVal) n p s :
  seedList = split (lower (strip text)) →
  params !! "WalletName" = Some n → params !! "WalletPass" = Some p →
  params !! "seed" = Some s →
  onNext split strip lower false seedList text params = GenerateWallet n p s.
Proof.
  intros Hw Hn Hp Hs. unfold onNext. rewrite Hn, Hp, Hs.
  by rewrite bool_decide_eq_false_2 by (intros H; by apply H).
Qed.

(** X3: [onNext] asks for a wallet to be generated only when the page is
    not done yet, the words typed are the words of the seed, and the three
    parameters are there; the wallet is then generated from exactly these
    parameters. *)
Theorem onNext_generates_only_if
    (split : string → list string) (strip lower : string → string)
    (isDone : bool) (seedList : list string) (text : string)
    (params : gmap string PyVal) (n p s : PyVal) :
  onNext split strip lower isDone seedList text params = GenerateWallet n p s ↔
  isDone = false
  ∧ seedList = split (lower (strip text))
  ∧ params !! "WalletName" = Some n
  ∧ params !! "WalletPass" = Some p
  ∧ params !! "seed" = Some s.
Proof.
  unfold onNext. destruct isDone; [by split; [|intros [? _]]|].
  destruct (bool_decide_reflect (seedList ≠ split (lower (strip text)))) as [Hne|He].
  { split; [done | by intros (_ & ? & _)]. }
  assert (Heq : seedList = split (lower (strip text))).
  { destruct (decide (seedList = split (lower (strip text)))); [done | by destruct He]. }
  destruct (params !! "WalletName") as [n'|]; [|by split; [|intros (_ & _ & ? & _)]].
  destruct (params !! "WalletPass") as [p'|]; [|by split; [|intros (_ & _ & _ & ? & _)]].
  destruct (params !! "seed") as [s'|]; [|by split; [|intros (_ & _ & _ & _ & ?)]].
  split.
  - by intros [= -> -> ->].
  - by intros (_ & _ & [= ->] & [= ->] & [= ->]).
Qed.

Lemma onNext_generates_only_if_witness :
  onNext (λ s, [s]) (λ s, s) (λ s, s) false ["abc"] "abc"
         {[ "WalletName" := VStr "w"; "WalletPass" := VStr "pw"; "seed" := VStr "abc" ]}
  = GenerateWallet (VStr "w") (VStr "pw") (VStr "abc").
Proof.
  apply onNext_generates_only_if. repeat split; reflexivity.
Defined.

(** X4: a form that [doChkFormOk] accepted carries through the wizard:
    after the first page and the seed page have passed their values along,
    [onNext] with the seed typed back generates the wallet under the
    path-safe name, with the password of the form and the seed shown. *)
Theorem wizard_generates_wallet
    (pathsafeify : string → string) (check_wallet_exists : string → bool)
    (split : string → list string) (strip lower : string → string)
    (self : NewWalletVC) (seed text : string) (params : gmap string PyVal) :
  let r := doChkFormOk pathsafeify check_wallet_exists self in
  let params1 := NewWalletVC_prepareForSegue r.2 params in
  let r2 := NewWalletSeed1_prepareForSegue split seed params1 in
  r.1 = true →
  NewWalletSeed1_shouldPerformSegue (Some seed) = true →
  split (lower (strip text)) = split seed →
  onNext split strip lower false r2.2.2 text r2.1
  = GenerateWallet (VStr (pathsafeify (walletName self)))
                   (VStr (walletPw1 self)) (VStr seed).
Proof.
  intros r params1 r2 Hok Hseed Htyped.
  apply doChkFormOk_msg in Hok as (Hname & _ & Hpw & Hsame).
  assert (Hs : seed ≠ "").
  { unfold NewWalletSeed1_shouldPerformSegue in Hseed.
    apply negb_true_iff, bool_decide_eq_false in Hseed. done. }
  subst r r2 params1.
  unfold NewWalletSeed1_prepareForSegue, NewWalletVC_prepareForSegue, doChkFormOk.
  cbn [fst snd walletName walletPw2].
  assert (Htr : ∀ x, x ≠ "" → truthy (VStr x) = true).
  { intros x Hx. simpl. by rewrite bool_decide_eq_false_2. }
  apply onNext_generates_intro; [done| | |].
  - rewrite !SetParam_other by done. by rewrite SetParam_same, Htr.
  - rewrite !SetParam_other by done. rewrite SetParam_same, <- Hsame.
    by rewrite Htr.
  - rewrite !SetParam_other by done. by rewrite SetParam_same, Htr.
Qed.

Lemma wizard_generates_wallet_witness :
  let self := mkNewWalletVC "w" "pw" "pw" "" true in
  let r := doChkFormOk (λ s, s) (λ _, false) self in
  let r2 := NewWalletSeed1_prepareForSegue (λ s, [s]) "abc"
              (NewWalletVC_prepareForSegue r.2 ∅) in
  onNext (λ s, [s]) (λ s, s) (λ s, s) false r2.2.2 "abc" r2.1
  = GenerateWallet (VStr "w") (VStr "pw") (VStr "abc").
Proof.
  intros self r r2.
  exact (wizard_generates_wallet (λ s, s) (λ _, false) (λ s, [s]) (λ s, s) (λ s, s)
           self "abc" "abc" ∅ eq_refl eq_refl eq_refl).
Defined.

(** X5: an empty password never reaches the generation of a wallet: the
    first page drops the parameter instead of storing it, also when an
    earlier one was there, and [onNext] then returns without generating. *)
Theorem empty_password_not_passed
    (split : string → list string) (strip lower : string → string)
    (self : NewWalletVC) (isDone : bool) (seedList : list string) (text : string)
    (params : gmap string PyVal) :
  walletPw2 self = "" →
  let params1 := NewWalletVC_prepareForSegue self params in
  params1 !! "WalletPass" = None
  ∧ ∀ n p s, onNext split strip lower isDone seedList text params1
             ≠ GenerateWallet n p s.
Proof.
  intros Hpw params1.
  assert (Hnone : params1 !! "WalletPass" = None).
  { subst params1. unfold NewWalletVC_prepareForSegue. rewrite Hpw.
    by rewrite SetParam_same. }
  split; [done|]. intros n p s Hgen.
  apply onNext_generates_inv in Hgen as (_ & Hp & _).
  by rewrite Hnone in Hp.
Qed.

Lemma empty_password_not_passed_witness :
  NewWalletVC_prepareForSegue (mkNewWalletVC "w" "" "" "" true)
    {[ "WalletPass" := VStr "old" ]} !! "WalletPass" = None.
Proof.
  exact (proj1 (empty_password_not_passed (λ s, [s]) (λ s, s) (λ s, s)
                  (mkNewWalletVC "w" "" "" "" true) false [] ""
                  {[ "WalletPass" := VStr "old" ]} eq_refl)).
Defined.

(** ** The pages of the on-boarding wizard *)

Lemma fold_pages_no_match (vc : nat) (f : nat → nat → nat * nat)
    (l : list nat) (acc : option nat) (F : nat → option nat) (P : nat → bool) :
  (∀ n v, (f n v).2 = v) → vc ∉ l →
  foldl (λ a iv, if bool_decide (iv.2 = vc) && P iv.1 then F iv.1 else a)
        acc (imap f l) = acc.
Proof.
  revert f acc. induction l as [|v l IH]; intros f acc Hf Hnotin; [done|].
  apply not_elem_of_cons in Hnotin as [Hne Hl].
  simpl. rewrite Hf, bool_decide_eq_false_2 by done. simpl.
  apply IH; [|done]. intros n w. apply Hf.
Qed.

Lemma fold_pages_at (vc : nat) (vcs : list nat) (i : nat)
    (F : nat → option nat) (P : nat → bool) :
  NoDup vcs → vcs !! i = Some vc →
  foldl (λ a iv, if bool_decide (iv.2 = vc) && P iv.1 then F iv.1 else a)
        None (imap pair vcs) = if P i then F i else None.
Proof.
  intros Hnd Hi.
  pose proof (take_drop_middle vcs i vc Hi) as Hsplit.
  assert (Hlen : length (take i vcs) = i).
  { apply length_take_le. apply lookup_lt_Some in Hi. lia. }
  rewrite <- Hsplit in Hnd.
  apply NoDup_app in Hnd as (_ & Hpre & Hpost).
  apply NoDup_cons in Hpost as [Hpost _].
  assert (Hpre' : vc ∉ take i vcs).
  { intros Hin. apply (Hpre vc Hin). apply elem_of_cons. by left. }
  rewrite <- Hsplit at 1. rewrite imap_app, foldl_app.
  rewrite (fold_pages_no_match vc pair (take i vcs) None F P) by done.
  rewrite Hlen. simpl. rewrite Nat.add_0_r.
  rewrite bool_decide_eq_true_2 by done. simpl.
  by apply fold_pages_no_match.
Qed.

(** X6: when no page occurs twice, the page before the one at position
    [i] is the one at [i - 1], and there is none before the first; the
    page after it is the one at [i + 1], and there is none after the last.
    So going forward and then back, or back and then forward, returns to
    the page one came from. *)
Theorem pages_before_after (vcs : list nat) (i vc : nat) :
  NoDup vcs → vcs !! i = Some vc →
  pageViewController_viewControllerBeforeViewController_ vcs vc
  = (if bool_decide (0 < i) then vcs !! (i - 1) else None)
  ∧ pageViewController_viewControllerAfterViewController_ vcs vc = vcs !! (i + 1)
  ∧ (∀ b, pageViewController_viewControllerBeforeViewController_ vcs vc = Some b →
          pageViewController_viewControllerAfterViewController_ vcs b = Some vc)
  ∧ (∀ a, pageViewController_viewControllerAfterViewController_ vcs vc = Some a →
          pageViewController_viewControllerBeforeViewController_ vcs a = Some vc).
Proof.
  intros Hnd Hi.
  assert (Hb4 : ∀ j v, vcs !! j = Some v →
            pageViewController_viewControllerBeforeViewController_ vcs v
            = if bool_decide (0 < j) then vcs !! (j - 1) else None).
  { intros j v Hj. unfold pageViewController_viewControllerBeforeViewController_.
    pose (P := λ k : nat, bool_decide (0 < k)).
    exact (fold_pages_at v vcs j (λ k, vcs !! (k - 1)) P Hnd Hj). }
  assert (Haft : ∀ j v, vcs !! j = Some v →
            pageViewController_viewControllerAfterViewController_ vcs v
            = vcs !! (j + 1)).
  { intros j v Hj. unfold pageViewController_viewControllerAfterViewController_.
    pose (P := λ k : nat, bool_decide (k + 1 < length vcs)).
    rewrite (fold_pages_at v vcs j (λ k, vcs !! (k + 1)) P Hnd Hj).
    subst P. cbv beta. case_bool_decide as Hlt; [done|].
    symmetry. apply lookup_ge_None. lia. }
  split; [by apply Hb4|]. split; [by apply Haft|]. split.
  - intros b. rewrite (Hb4 i vc Hi). case_bool_decide as Hpos; [|done].
    intros Hb. rewrite (Haft (i - 1) b Hb).
    by replace (i - 1 + 1) with i by lia.
  - intros a. rewrite (Haft i vc Hi). intros Ha.
    rewrite (Hb4 (i + 1) a Ha). rewrite bool_decide_eq_true_2 by lia.
    by replace (i + 1 - 1) with i by lia.
Qed.

Lemma pages_before_after_witness :
  pageViewController_viewControllerBeforeViewController_ [10; 11; 12; 13] 10 = None
  ∧ pageViewController_viewControllerAfterViewController_ [10; 11; 12; 13] 10 = Some 11
  ∧ pageViewController_viewControllerAfterViewController_ [10; 11; 12; 13] 13 = None.
Proof.
  assert (Hnd : NoDup [10; 11; 12; 13]) by (apply NoDup_ListNoDup; repeat constructor; simpl; lia).
  split; [|split].
  - exact (proj1 (pages_before_after [10; 11; 12; 13] 0 10 Hnd eq_refl)).
  - exact (proj1 (proj2 (pages_before_after [10; 11; 12; 13] 0 10 Hnd eq_refl))).
  - exact (proj1 (proj2 (pages_before_after [10; 11; 12; 13] 3 13 Hnd eq_refl))).
Defined.

(** * Properties of the addresses tab *)

(** ** Filing the items *)

Lemma grid_ext f g :
  (∀ t s, f t s = g t s) → grid f = grid g.
Proof. intros H. unfold grid. simpl. by rewrite !H. Qed.

Lemma file_item_grid f item :
  file_item item (grid f)
  = grid (λ t s, f t s ++ if in_bucket t s item then [item] else []).
Proof.
  unfold file_item, master_append, in_bucket, grid.
  assert (Hn : bool_decide (num_tx item = 0) = negb (bool_decide (num_tx item ≠ 0))).
  { destruct (num_tx item); by vm_compute. }
  rewrite Hn.
  destruct (is_change item), (bool_decide (balance item ≠ 0%Z)),
    (bool_decide (num_tx item ≠ 0)); simpl; by rewrite ?app_nil_r.
Qed.

Lemma file_items_grid (mk : nat → Address → Entry) f l :
  foldl (λ m na, file_item (mk na.1 na.2) m) (grid f) (imap pair l)
  = grid (λ t s, f t s ++ List.filter (in_bucket t s) (imap mk l)).
Proof.
  revert mk f. induction l as [|a l IH]; intros mk f.
  - simpl. apply grid_ext. intros t s. by rewrite app_nil_r.
  - cbn [imap foldl fst snd]. rewrite file_item_grid.
    change (imap (pair ∘ S) l) with (imap (λ n a, (S n, a)) l).
    pose proof (IH (mk ∘ S)) as IH'.
    assert (Hshift : ∀ (m : list (list (list Entry))),
              foldl (λ m na, file_item (mk na.1 na.2) m) m (imap (λ n a, (S n, a)) l)
              = foldl (λ m na, file_item ((mk ∘ S) na.1 na.2) m) m (imap pair l)).
    { intros m. clear. revert m.
      assert (Hgen : ∀ (g : nat → nat) m,
                foldl (λ m na, file_item (mk na.1 na.2) m) m
                      (imap (λ n a, (S (g n), a)) l)
                = foldl (λ m na, file_item ((mk ∘ S) na.1 na.2) m) m
                        (imap (λ n a, (g n, a)) l)).
      { induction l as [|b l IHl]; intros g m; [done|].
        simpl. apply (IHl (g ∘ S)). }
      intros m. apply (Hgen (λ n, n)). }
    rewrite Hshift, IH'. apply grid_ext. intros t s.
    rewrite <- app_assoc. f_equal. simpl.
    by destruct (in_bucket t s (mk 0 a)).
Qed.

Lemma grid_cell f t s :
  t < 3 → s < 4 → grid f !! t ≫= (.!! s) = Some (f t s).
Proof.
  intros Ht Hs. unfold grid.
  destruct t as [|[|[|t]]]; [| | |lia];
    (destruct s as [|[|[|[|s]]]]; [| | | |lia]); reflexivity.
Qed.

Lemma grid_cell_out f t s :
  ¬ (t < 3 ∧ s < 4) → grid f !! t ≫= (.!! s) = None.
Proof.
  intros H. unfold grid.
  destruct t as [|[|[|t]]]; [| | |done];
    (destruct s as [|[|[|[|s]]]]; [| | | |done]); lia.
Qed.

Lemma map_sort_grid f :
  map (map sort_reverse) (grid f) = grid (λ t s, sort_reverse (f t s)).
Proof. reflexivity. Qed.

(** The table [refresh] leaves, cell by cell. *)
Lemma refresh_master parent wallet :
  parent_wallet parent = Some wallet →
  master (AddressData_refresh parent)
  = grid (λ t s, sort_reverse (List.filter (in_bucket t s) (wallet_entries parent wallet))).
Proof.
  intros Hw. unfold AddressData_refresh, wallet_entries. rewrite Hw.
  cbn [master]. set (fx := match daemon_fx parent with
                           | Some (Some fx) => _ | _ => None end).
  change (master AddressData_clear) with (grid (λ _ _, [])).
  assert (Hboth :
    foldl (λ m (is_change : bool),
             foldl (λ m na, file_item (make_item parent wallet fx is_change na.1 na.2) m) m
                   (imap pair (if is_change then get_change_addresses wallet
                               else get_receiving_addresses wallet)))
          (grid (λ _ _, []))
          (match get_change_addresses wallet with [] => [false] | _ => [false; true] end)
    = grid (λ t s, List.filter (in_bucket t s)
                     (imap (make_item parent wallet fx false) (get_receiving_addresses wallet)
                      ++ imap (make_item parent wallet fx true) (get_change_addresses wallet)))).
  { destruct (get_change_addresses wallet) as [|c cs] eqn:Hc.
    - cbn [foldl]. rewrite file_items_grid. apply grid_ext. intros t s.
      simpl. by rewrite app_nil_r.
    - cbn [foldl]. rewrite !file_items_grid. apply grid_ext. intros t s.
      simpl. by rewrite List.filter_app. }
  rewrite Hboth. apply map_sort_grid.
Qed.

(** ** The closing sort *)

Lemma key_ge_trans x y z : key_ge x y → key_ge y z → key_ge x z.
Proof.
  unfold key_ge, key_lt.
  destruct (sort_key x) as [[a1 a2] a3], (sort_key y) as [[b1 b2] b3],
    (sort_key z) as [[c1 c2] c3]. simpl. lia.
Qed.

Lemma key_lt_ge x y : key_lt (sort_key x) (sort_key y) → key_ge y x.
Proof.
  unfold key_ge, key_lt.
  destruct (sort_key x) as [[a1 a2] a3], (sort_key y) as [[b1 b2] b3]. simpl. lia.
Qed.

Lemma insert_desc_perm x l : insert_desc x l ≡ₚ x :: l.
Proof.
  induction l as [|y l IH]; [done|]. simpl. case_decide; [|done].
  rewrite IH. apply Permutation_swap.
Qed.

Lemma sort_reverse_perm l : sort_reverse l ≡ₚ l.
Proof.
  induction l as [|x l IH]; [done|]. simpl. rewrite insert_desc_perm.
  by constructor.
Qed.

Lemma insert_desc_sorted x l :
  StronglySorted key_ge l → StronglySorted key_ge (insert_desc x l).
Proof.
  induction 1 as [|y l Hs IH Hall]; simpl; [by repeat constructor|].
  case_decide as Hlt.
  - constructor; [done|]. rewrite insert_desc_perm. constructor; [|done].
    by apply key_lt_ge.
  - constructor; [by constructor|]. constructor; [done|].
    eapply Forall_impl; [exact Hall|]. intros z Hz. by eapply key_ge_trans.
Qed.

Lemma sort_reverse_sorted l : StronglySorted key_ge (sort_reverse l).
Proof.
  induction l as [|x l IH]; simpl; [constructor | by apply insert_desc_sorted].
Qed.

Lemma insert_desc_stable k x l :
  List.filter (λ e, bool_decide (sort_key e = k)) (insert_desc x l)
  = List.filter (λ e, bool_decide (sort_key e = k)) (x :: l).
Proof.
  induction l as [|y l IH]; [done|]. cbn [insert_desc]. case_decide as Hlt; [|done].
  cbn [List.filter] in *. rewrite IH.
  destruct (bool_decide_reflect (sort_key x = k)) as [Hx|Hx]; [|done].
  rewrite bool_decide_eq_false_2; [done|].
  intros Hy. rewrite Hx, Hy in Hlt. unfold key_lt in Hlt. lia.
Qed.

Lemma sort_reverse_stable k l :
  List.filter (λ e, bool_decide (sort_key e = k)) (sort_reverse l)
  = List.filter (λ e, bool_decide (sort_key e = k)) l.
Proof.
  induction l as [|x l IH]; [done|]. cbn [sort_reverse foldr].
  fold (sort_reverse l). rewrite insert_desc_stable. cbn [List.filter].
  by rewrite IH.
Qed.

Lemma filter_split (p q r : Entry → bool) l :
  (∀ e, p e = q e || r e) → (∀ e, q e && r e = false) →
  List.filter p l ≡ₚ List.filter q l ++ List.filter r l.
Proof.
  intros Hp Hqr. induction l as [|e l IH]; [done|]. simpl.
  rewrite Hp. specialize (Hqr e). destruct (q e), (r e); simpl in *; try done.
  - by constructor.
  - rewrite IH. apply Permutation_middle.
Qed.

Lemma bucket_refresh parent wallet t s :
  parent_wallet parent = Some wallet → t < 3 → s < 4 →
  bucket (AddressData_refresh parent) t s
  = sort_reverse (List.filter (in_bucket t s) (wallet_entries parent wallet)).
Proof.
  intros Hw Ht Hs. unfold bucket.
  by rewrite (refresh_master parent wallet Hw), grid_cell.
Qed.

(** ** What [refresh] leaves in the table *)

(** X7: after [refresh] the list under a type and a status holds exactly
    the wallet's items of that type and status, each as often as the
    wallet has it: under "Any" all, under "Receiving" and "Change" by
    [is_change]; under "All" all, under "Funded" those with a balance
    other than zero, under "Used" those with a history and under
    "Unused" those without. *)
Theorem refresh_bucket_contents
    (parent : Parent) (wallet : IosWallet) (t s : nat) :
  parent_wallet parent = Some wallet → t < 3 → s < 4 →
  bucket (AddressData_refresh parent) t s
  ≡ₚ List.filter (in_bucket t s) (wallet_entries parent wallet)
  ∧ (∀ e, e ∈ bucket (AddressData_refresh parent) t s
          ↔ e ∈ wallet_entries parent wallet ∧ in_bucket t s e = true)
  ∧ bucket (AddressData_refresh parent) 0 0 ≡ₚ wallet_entries parent wallet.
Proof.
  intros Hw Ht Hs.
  assert (Hperm : bucket (AddressData_refresh parent) t s
                  ≡ₚ List.filter (in_bucket t s) (wallet_entries parent wallet)).
  { rewrite (bucket_refresh parent wallet) by done. apply sort_reverse_perm. }
  split; [done|]. split.
  - intros e. rewrite Hperm, list_elem_of_In, filter_In. by rewrite list_elem_of_In.
  - rewrite (bucket_refresh parent wallet) by (done || lia).
    rewrite sort_reverse_perm.
    assert (Hall : ∀ l, List.filter (in_bucket 0 0) l = l).
    { induction l as [|e l IH]; [done|]. simpl. by rewrite IH. }
    by rewrite Hall.
Qed.

(** X8: every list of the table is in descending order of balance, then
    of the number of transactions, then in ascending order of the index;
    and items that agree in all three stand in the order in which the
    wallet gave them, the receiving ones first. *)
Theorem refresh_bucket_sorted
    (parent : Parent) (wallet : IosWallet) (t s : nat) (k : Z * Z * Z) :
  parent_wallet parent = Some wallet → t < 3 → s < 4 →
  StronglySorted key_ge (bucket (AddressData_refresh parent) t s)
  ∧ List.filter (λ e, bool_decide (sort_key e = k))
      (bucket (AddressData_refresh parent) t s)
    = List.filter (λ e, bool_decide (sort_key e = k))
        (List.filter (in_bucket t s) (wallet_entries parent wallet)).
Proof.
  intros Hw Ht Hs. rewrite (bucket_refresh parent wallet) by done.
  split; [apply sort_reverse_sorted | apply sort_reverse_stable].
Qed.

(** X9: the lists fit together: what stands under "Any" is what stands
    under "Receiving" and "Change" taken together, what stands under
    "All" is what stands under "Unused" and "Used" taken together, and
    every funded item also stands under "All". *)
Theorem refresh_buckets_partition
    (parent : Parent) (wallet : IosWallet) (t s : nat) :
  parent_wallet parent = Some wallet → t < 3 → s < 4 →
  bucket (AddressData_refresh parent) 0 s
  ≡ₚ bucket (AddressData_refresh parent) 1 s ++ bucket (AddressData_refresh parent) 2 s
  ∧ bucket (AddressData_refresh parent) t 0
    ≡ₚ bucket (AddressData_refresh parent) t 2 ++ bucket (AddressData_refresh parent) t 3
  ∧ bucket (AddressData_refresh parent) t 1 ⊆ bucket (AddressData_refresh parent) t 0.
Proof.
  intros Hw Ht Hs.
  rewrite !(bucket_refresh parent wallet) by (done || lia).
  rewrite !sort_reverse_perm. split; [|split].
  - apply filter_split; intros e; unfold in_bucket;
      destruct (is_change e); simpl; try done;
      repeat case_bool_decide; try done; lia.
  - apply filter_split; intros e; unfold in_bucket;
      destruct t as [|[|[|?]]], (is_change e), (num_tx e); by vm_compute.
  - intros e. rewrite !list_elem_of_In, !filter_In.
    intros [Hin Hb]. split; [done|]. unfold in_bucket in *. simpl in *.
    apply andb_true_iff in Hb as [Hty _]. by rewrite Hty.
Qed.

Lemma refresh_bucket_contents_witness :
  bucket (AddressData_refresh example_parent) 0 0
  ≡ₚ wallet_entries example_parent example_ios_wallet.
Proof.
  exact (proj2 (proj2 (refresh_bucket_contents example_parent example_ios_wallet 0 0
                         eq_refl ltac:(lia) ltac:(lia)))).
Defined.

Lemma refresh_bucket_sorted_witness :
  StronglySorted key_ge (bucket (AddressData_refresh example_parent) 0 0).
Proof.
  exact (proj1 (refresh_bucket_sorted example_parent example_ios_wallet 0 0 (0, 0, 0)%Z
                  eq_refl ltac:(lia) ltac:(lia))).
Defined.

Lemma refresh_buckets_partition_witness :
  bucket (AddressData_refresh example_parent) 0 3
  ≡ₚ bucket (AddressData_refresh example_parent) 1 3
     ++ bucket (AddressData_refresh example_parent) 2 3.
Proof.
  exact (proj1 (refresh_buckets_partition example_parent example_ios_wallet 0 3
                  eq_refl ltac:(lia) ltac:(lia))).
Defined.

(** X10: without a wallet [refresh] leaves every list empty and the fiat
    column off; and for a wallet without change addresses the lists under
    "Change" are empty and those under "Receiving" are the ones under
    "Any". *)
Theorem refresh_edge_cases (parent : Parent) (t s : nat) :
  (parent_wallet parent = None →
     bucket (AddressData_refresh parent) t s = []
     ∧ show_fx (AddressData_refresh parent) = false)
  ∧ (∀ wallet, parent_wallet parent = Some wallet →
       get_change_addresses wallet = [] → s < 4 →
       bucket (AddressData_refresh parent) 2 s = []
       ∧ bucket (AddressData_refresh parent) 1 s
         = bucket (AddressData_refresh parent) 0 s).
Proof.
  split.
  - intros Hw. unfold AddressData_refresh. rewrite Hw. split; [|done].
    unfold bucket. change (master AddressData_clear) with (grid (λ _ _, [])).
    destruct (decide (t < 3 ∧ s < 4)) as [[Ht Hs]|Hout].
    + by rewrite grid_cell.
    + by rewrite grid_cell_out.
  - intros wallet Hw Hc Hs.
    rewrite !(bucket_refresh parent wallet) by (done || lia).
    assert (Hnc : ∀ e, e ∈ wallet_entries parent wallet → is_change e = false).
    { intros e. unfold wallet_entries. rewrite Hc. simpl. rewrite app_nil_r.
      intros Hin. apply elem_of_lookup_imap in Hin as (i & a & -> & _). done. }
    assert (Hfilter : ∀ l, (∀ e, e ∈ l → is_change e = false) →
              List.filter (in_bucket 2 s) l = []
              ∧ List.filter (in_bucket 1 s) l = List.filter (in_bucket 0 s) l).
    { induction l as [|e l IH]; intros Hl; [done|].
      destruct IH as [IH2 IH1].
      { intros e' He'. apply Hl. apply elem_of_cons. by right. }
      assert (He : is_change e = false) by (apply Hl, elem_of_cons; by left).
      simpl. rewrite IH2, IH1. unfold in_bucket. rewrite He. simpl. done. }
    destruct (Hfilter _ Hnc) as [H2 H1]. by rewrite H2, H1.
Qed.

Lemma refresh_edge_cases_witness :
  bucket (AddressData_refresh (mkParent None None (λ _, ""))) 0 0 = [].
Proof.
  exact (proj1 (proj1 (refresh_edge_cases (mkParent None None (λ _, "")) 0 0) eq_refl)).
Defined.

(** ** The table view *)

(** X11: the table has a section exactly when it has rows, and with a
    valid selection it always has a row, also when the selected list is
    empty: that one row is the "no results" row, and tapping it, like any
    row past the end of the list, does nothing.  Tapping row [row] of the
    list opens, in normal mode, the detail of the item at that place. *)
Theorem table_rows_and_taps (self : AddressesVC) (row : nat) :
  (tableView_numberOfRowsInSection_ self = 0 ↔ numberOfSectionsInTableView_ self = 0)
  ∧ (numberOfSectionsInTableView_ self = 1 → 1 ≤ tableView_numberOfRowsInSection_ self)
  ∧ (∀ section, selected_section self = Some section →
       tableView_numberOfRowsInSection_ self = max 1 (length section)
       ∧ (length section ≤ row →
            tableView_didSelectRowAtIndexPath_ self row = TapIgnored)
       ∧ (∀ entry, section !! row = Some entry → mode self = ModeNormal →
            tableView_didSelectRowAtIndexPath_ self row = TapPushDetail entry)).
Proof.
  unfold tableView_numberOfRowsInSection_, numberOfSectionsInTableView_,
    tableView_didSelectRowAtIndexPath_.
  destruct (selected_section self) as [section|] eqn:Hsel.
  - assert (Hd : is_Some (addrData self)).
    { unfold selected_section in Hsel. destruct (addrData self); [by eexists | done]. }
    destruct Hd as [d Hd]. rewrite Hd.
    split; [split; intros; lia|]. split; [intros; lia|].
    intros section' [= <-]. split; [done|]. split.
    + intros Hrow. by rewrite bool_decide_eq_true_2.
    + intros entry Hentry Hmode.
      rewrite bool_decide_eq_false_2 by (apply lookup_lt_Some in Hentry; lia).
      rewrite Hentry. by rewrite bool_decide_eq_true_2.
  - split; [by destruct (addrData self)|]. split; [done|]. done.
Qed.

Lemma table_rows_and_taps_witness :
  let self := mkAddressesVC false false ModeNormal 2 1
                (Some (AddressData_refresh example_parent)) false true 0 in
  tableView_numberOfRowsInSection_ self = 1
  ∧ tableView_didSelectRowAtIndexPath_ self 0 = TapIgnored.
Proof.
  intros self.
  destruct (proj2 (proj2 (table_rows_and_taps self 0)) [] eq_refl) as (Hrows & Htap & _).
  split; [exact Hrows | exact (Htap ltac:(simpl; lia))].
Defined.

(** ** Looking an address up *)

Lemma find_None_all {A} (p : A → bool) l :
  List.find p l = None ↔ ∀ x, x ∈ l → p x = false.
Proof.
  induction l as [|y l IH]; simpl.
  - split; [|done]. intros _ x Hx. by apply elem_of_nil in Hx.
  - destruct (p y) eqn:Hy.
    + split; [done|]. intros H. rewrite H in Hy; [done|].
      apply elem_of_cons. by left.
    + rewrite IH. split.
      * intros H x Hx. apply elem_of_cons in Hx as [->|Hx]; [done | by apply H].
      * intros H x Hx. apply H, elem_of_cons. by right.
Qed.

(** X12: after a refresh, [EntryForAddress] finds an item of the wallet
    whose address prints like the one asked for, and gives [None] exactly
    when the wallet has no such address; it raises [ValueError] when
    there is no addresses tab. *)
Theorem EntryForAddress_after_refresh
    (from_string : string → option Address) (parent : Parent) (wallet : IosWallet)
    (vc : AddressesVC) (s : string) (a : Address) :
  parent_wallet parent = Some wallet →
  addrData vc = Some (AddressData_refresh parent) →
  from_string s = Some a →
  (∃ r, EntryForAddress from_string (Some vc) s = inr r)
  ∧ (∀ e, EntryForAddress from_string (Some vc) s = inr (Some e) →
          e ∈ wallet_entries parent wallet
          ∧ Address_str (address e) = Address_str a)
  ∧ (EntryForAddress from_string (Some vc) s = inr None ↔
       ∀ e, e ∈ wallet_entries parent wallet →
            Address_str (address e) ≠ Address_str a)
  ∧ ∃ msg, EntryForAddress from_string None s = inl (ValueError msg).
Proof.
  intros Hw Hd Hfs.
  assert (Hrun : EntryForAddress from_string (Some vc) s
                 = inr (List.find (λ entry, bool_decide
                          (Address_str (address entry) = Address_str a))
                        (bucket (AddressData_refresh parent) 0 0))).
  { unfold EntryForAddress, bucket. rewrite Hfs, Hd.
    rewrite (refresh_master parent wallet Hw), grid_cell by lia. done. }
  pose proof (proj2 (proj2 (refresh_bucket_contents parent wallet 0 0
                              Hw ltac:(lia) ltac:(lia)))) as Hperm.
  rewrite Hrun. split; [by eexists|]. split; [|split].
  - intros e [= Hfind]. apply find_some in Hfind as [Hin He].
    apply list_elem_of_In in Hin. rewrite Hperm in Hin.
    split; [done|]. by apply bool_decide_eq_true in He.
  - split.
    + intros [= Hfind] e He. rewrite <- Hperm in He.
      pose proof (proj1 (find_None_all _ _) Hfind e He) as Hne.
      by apply bool_decide_eq_false in Hne.
    + intros Hall. f_equal. apply find_None_all. intros e He.
      rewrite Hperm in He. apply bool_decide_eq_false. by apply Hall.
  - by eexists.
Qed.

Lemma EntryForAddress_after_refresh_witness :
  ∃ e, EntryForAddress (λ s, Some (example_address s))
         (Some (updateAddressesFromWallet example_parent example_vc)) "c0"
       = inr (Some e)
       ∧ Address_str (address e) = "c0".
Proof.
  pose proof (EntryForAddress_after_refresh (λ s, Some (example_address s))
                example_parent example_ios_wallet
                (updateAddressesFromWallet example_parent example_vc)
                "c0" (example_address "c0") eq_refl eq_refl eq_refl)
    as ([r Hr] & Hsome & _).
  destruct r as [e|]; [|discriminate Hr].
  exists e. split; [exact Hr|]. exact (proj2 (Hsome e Hr)).
Defined.

(** ** Refreshing and editing *)

Lemma vc_calls_blocked parent calls self :
  blockRefresh self = true →
  let asked := foldl (vc_call parent) self calls in
  addrData asked = addrData self
  ∧ reloads asked = reloads self
  ∧ has_tableView asked = has_tableView self
  ∧ blockRefresh asked = true
  ∧ needsRefresh asked
    = needsRefresh self
      || bool_decide (CallRefresh ∈ calls ∨ CallNeedUpdate ∈ calls).
Proof.
  revert self. induction calls as [|c calls IH]; intros self Hb.
  - cbn [foldl]. cbv zeta.
    rewrite (bool_decide_eq_false_2 (CallRefresh ∈ [] ∨ CallNeedUpdate ∈ []))
      by (intros [H|H]; by apply elem_of_nil in H).
    by rewrite orb_false_r.
  - cbn [foldl]. cbv zeta in IH.
    assert (Hstep : addrData (vc_call parent self c) = addrData self
                    ∧ reloads (vc_call parent self c) = reloads self
                    ∧ has_tableView (vc_call parent self c) = has_tableView self
                    ∧ blockRefresh (vc_call parent self c) = true
                    ∧ needsRefresh (vc_call parent self c)
                      = needsRefresh self
                        || match c with CallDoRefreshIfNeeded => false | _ => true end).
    { destruct c; unfold vc_call, doRefreshIfNeeded, AddressesVC_refresh,
        needUpdate, set_refresh_flags; simpl; rewrite ?Hb; simpl;
        destruct (needsRefresh self) eqn:Hn; simpl; rewrite ?Hb; simpl;
        repeat split; done. }
    destruct Hstep as (Hd & Hr & Ht & Hb' & Hn).
    destruct (IH _ Hb') as (IHd & IHr & IHt & IHb & IHn).
    rewrite IHd, IHr, IHt, IHb, IHn, Hd, Hr, Ht, Hn. repeat split; try done.
    rewrite <- orb_assoc. f_equal.
    destruct c; cbn [orb].
    + symmetry. apply bool_decide_eq_true_2. left. apply elem_of_cons. by left.
    + symmetry. apply bool_decide_eq_true_2. right. apply elem_of_cons. by left.
    + apply bool_decide_ext. rewrite !elem_of_cons.
      split.
      * intros [H|H]; [left | right]; by right.
      * intros [[H|H]|[H|H]]; try discriminate; [by left | by right].
Qed.

(** Whether a run of calls asks for a refresh. *)
Lemma asks_refresh_app (l1 l2 : list VcCall) :
  bool_decide (CallRefresh ∈ l1 ++ l2 ∨ CallNeedUpdate ∈ l1 ++ l2)
  = bool_decide (CallRefresh ∈ l1 ∨ CallNeedUpdate ∈ l1)
    || bool_decide (CallRefresh ∈ l2 ∨ CallNeedUpdate ∈ l2).
Proof.
  rewrite <- bool_decide_or. apply bool_decide_ext.
  rewrite !elem_of_app. tauto.
Qed.

Lemma doRefreshIfNeeded_blocked parent (vc : AddressesVC) :
  blockRefresh vc = true →
  let done := doRefreshIfNeeded parent vc in
  addrData done = addrData vc ∧ reloads done = reloads vc
  ∧ blockRefresh done = true.
Proof.
  intros Hb. unfold doRefreshIfNeeded, AddressesVC_refresh, set_refresh_flags.
  destruct (needsRefresh vc); cbn [blockRefresh]; rewrite Hb; by cbn.
Qed.

Lemma doRefreshIfNeeded_unblocked parent (vc : AddressesVC) :
  blockRefresh vc = false →
  let done := doRefreshIfNeeded parent vc in
  blockRefresh done = false
  ∧ (needsRefresh vc = true →
       addrData done = Some (AddressData_refresh parent)
       ∧ reloads done = (if has_tableView vc then S (reloads vc) else reloads vc)
       ∧ needsRefresh done = false)
  ∧ (needsRefresh vc = false → done = vc).
Proof.
  intros Hb. unfold doRefreshIfNeeded, AddressesVC_refresh,
    updateAddressesFromWallet, set_refresh_flags.
  destruct (needsRefresh vc).
  - cbn [blockRefresh has_tableView]. rewrite Hb.
    destruct (has_tableView vc); cbn; repeat split; done.
  - cbn. repeat split; done.
Qed.

(** X13: while a label is being edited the table is left alone: whatever
    refreshes are asked for meanwhile change neither the data nor the
    table and are only noted, and so are those that storing the new label
    brings about when the editing ends.  [textFieldDidEndEditing_] runs to
    its end, unblocking the tab, exactly when a [tf_dict] is stored and
    storing the label (if the field has an address) returns; otherwise the
    tab stays blocked and the next [doRefreshIfNeeded] still leaves data
    and table alone.  When it has run to its end a noted refresh is not
    lost: the queued [doRefreshIfNeeded] refreshes the data from the
    wallet, reloads the table once and clears the note; and when none was
    asked for it does nothing. *)
Theorem refresh_deferred_while_editing
    (on_label_edited : Address → string → list VcCall * bool)
    (strip : string → string)
    (parent parent' : Parent) (self : AddressesVC) (calls : list VcCall)
    (tf_dict : option (gmap nat Address)) (tf_ptr : nat) (tf_text : string) :
  let editing := textFieldDidBeginEditing_ self in
  let asked := foldl (vc_call parent) editing calls in
  let edit := match tf_dict ≫= (.!! tf_ptr) with
              | Some addr => on_label_edited addr (strip tf_text)
              | None => ([], true)
              end in
  let ended := textFieldDidEndEditing_ on_label_edited strip parent'
                 tf_dict tf_ptr tf_text asked in
  let done := doRefreshIfNeeded parent' ended.1 in
  let all_calls := calls ++ edit.1 in
  addrData asked = addrData self
  ∧ reloads asked = reloads self
  ∧ addrData ended.1 = addrData self
  ∧ reloads ended.1 = reloads self
  ∧ ended.2 = bool_decide (is_Some tf_dict) && edit.2
  ∧ blockRefresh ended.1 = negb ended.2
  ∧ blockRefresh done = negb ended.2
  ∧ (ended.2 = false →
       addrData done = addrData self ∧ reloads done = reloads self)
  ∧ (ended.2 = true →
       needsRefresh self = true
       ∨ CallRefresh ∈ all_calls ∨ CallNeedUpdate ∈ all_calls →
       addrData done = Some (AddressData_refresh parent')
       ∧ reloads done = (if has_tableView self then S (reloads self) else reloads self)
       ∧ needsRefresh done = false)
  ∧ (ended.2 = true →
       needsRefresh self = false →
       CallRefresh ∉ all_calls → CallNeedUpdate ∉ all_calls →
       addrData done = addrData self ∧ reloads done = reloads self).
Proof.
  intros editing asked edit ended done all_calls.
  assert (Hb : blockRefresh editing = true) by done.
  destruct (vc_calls_blocked parent calls editing Hb)
    as (Hd & Hr & Ht & Hbl & Hn).
  fold asked in Hd, Hr, Ht, Hbl, Hn.
  change (addrData editing) with (addrData self) in Hd.
  change (reloads editing) with (reloads self) in Hr.
  change (has_tableView editing) with (has_tableView self) in Ht.
  change (needsRefresh editing) with (needsRefresh self) in Hn.
  split; [done|]. split; [done|].
  (* the tab once the label has been stored, still blocked *)
  set (stored := foldl (vc_call parent') asked edit.1).
  destruct (vc_calls_blocked parent' edit.1 asked Hbl)
    as (Hd' & Hr' & Ht' & Hbl' & Hn').
  fold stored in Hd', Hr', Ht', Hbl', Hn'.
  rewrite Hd in Hd'. rewrite Hr in Hr'. rewrite Ht in Ht'.
  rewrite Hn, <- orb_assoc, <- asks_refresh_app in Hn'. fold all_calls in Hn'.
  assert (Hended : ended =
            match tf_dict with
            | None => (asked, false)
            | Some _ =>
                if edit.2
                then (set_refresh_flags (needsRefresh stored) false stored, true)
                else (stored, false)
            end).
  { subst ended stored edit. unfold textFieldDidEndEditing_.
    destruct tf_dict as [d|]; [|done]. cbn [mbind option_bind].
    destruct (d !! tf_ptr) as [addr|]; [|done].
    by destruct (on_label_edited addr (strip tf_text)) as [cs []]. }
  subst done. rewrite Hended. clear Hended ended.
  destruct tf_dict as [d|].
  - rewrite (bool_decide_eq_true_2 (is_Some (Some d))) by eauto.
    cbn [andb]. destruct edit.2.
    + set (vc := set_refresh_flags (needsRefresh stored) false stored).
      cbn [fst snd negb].
      destruct (doRefreshIfNeeded_unblocked parent' vc eq_refl)
        as (Hub & Hyes & Hno).
      change (needsRefresh vc) with (needsRefresh stored) in Hyes, Hno.
      change (has_tableView vc) with (has_tableView stored) in Hyes.
      change (reloads vc) with (reloads stored) in Hyes.
      rewrite Hn', Ht', Hr' in Hyes. rewrite Hn' in Hno.
      split; [done|]. split; [done|]. split; [done|]. split; [done|].
      split; [done|]. split; [discriminate|]. split.
      * intros _ Hasked. apply Hyes.
        destruct Hasked as [->|Hc]; [done|].
        rewrite (bool_decide_eq_true_2 _ Hc). apply orb_true_r.
      * intros _ Hnone Hc1 Hc2. rewrite Hno.
        -- done.
        -- rewrite Hnone, bool_decide_eq_false_2 by tauto. done.
    + cbn [fst snd negb].
      destruct (doRefreshIfNeeded_blocked parent' stored Hbl')
        as (Hsd & Hsr & Hsb).
      rewrite Hsd, Hsr, Hsb, Hd', Hr', Hbl'.
      repeat split; done.
  - rewrite (bool_decide_eq_false_2 (is_Some None))
      by (intros [? ?]; discriminate).
    cbn [andb fst snd negb].
    destruct (doRefreshIfNeeded_blocked parent' asked Hbl)
      as (Hsd & Hsr & Hsb).
    rewrite Hsd, Hsr, Hsb, Hd, Hr, Hbl.
    repeat split; done.
Qed.

Lemma refresh_deferred_while_editing_witness :
  let ended := textFieldDidEndEditing_ (λ _ _, ([CallNeedUpdate], true)) id
                 example_parent (Some {[ 7 := example_address "r0" ]}) 7 "savings"
                 (foldl (vc_call example_parent)
                        (textFieldDidBeginEditing_ example_vc)
                        [CallDoRefreshIfNeeded]) in
  let done := doRefreshIfNeeded example_parent ended.1 in
  ended.2 = true
  ∧ addrData done = Some (AddressData_refresh example_parent)
  ∧ reloads done = 1
  ∧ needsRefresh done = false.
Proof.
  intros ended done. split; [reflexivity|].
  destruct (refresh_deferred_while_editing
              (λ _ _, ([CallNeedUpdate], true)) id
              example_parent example_parent example_vc [CallDoRefreshIfNeeded]
              (Some {[ 7 := example_address "r0" ]}) 7 "savings")
    as (_ & _ & _ & _ & _ & _ & _ & _ & H & _).
  apply H; [reflexivity|].
  right. right. apply elem_of_app. right.
  change (CallNeedUpdate ∈ [CallNeedUpdate]). apply elem_of_cons. by left.
Defined.

(** * More on the CashFusion plugin *)

(** ** The password dialog *)

Lemma chk_pass_run σ w password :
  _chk_pass w password σ
  = (inr (negb (has_password (wallets σ w))
          || check_password (wallets σ w) (Some password)), σ).
Proof.
  unfold _chk_pass, wallet_has_password, wallet_check_password. run_monad.
  destruct (has_password (wallets σ w)); simpl; [|done].
  by destruct (check_password (wallets σ w) (Some password)).
Qed.

Lemma cache_pw_returns σ w password :
  (cache_pw w password σ).1 = inr tt.
Proof.
  unfold cache_pw, window_for_wallet, gui_cache_password. run_monad.
  destruct (weak_window (wallets σ w)) as [r|]; [|done].
  by destruct (windows σ !! r).
Qed.

Lemma PasswordDialog_run_step σ w p rest :
  PasswordDialog_run w (p :: rest) σ
  = if negb (has_password (wallets σ w)) || check_password (wallets σ w) (Some p)
    then (inr (Some p), (cache_pw w p σ).2)
    else PasswordDialog_run w rest σ.
Proof.
  cbn [PasswordDialog_run]. unfold bind at 1. rewrite chk_pass_run.
  destruct (negb (has_password (wallets σ w))
            || check_password (wallets σ w) (Some p)); [|done].
  unfold bind, ret. pose proof (cache_pw_returns σ w p) as Hc.
  destruct (cache_pw w p σ) as [[e|[]] σ']; [discriminate | done].
Qed.

Lemma PasswordDialog_run_dialog σ w attempts :
  let accepted (p : string) :=
    negb (has_password (wallets σ w)) || check_password (wallets σ w) (Some p) in
  PasswordDialog_run w attempts σ
  = match List.find accepted attempts with
    | Some p => (inr (Some p), (cache_pw w p σ).2)
    | None => (inr None, σ)
    end.
Proof.
  intros accepted. induction attempts as [|p rest IH]; [done|].
  rewrite PasswordDialog_run_step. cbn [List.find]. fold (accepted p).
  by destruct (accepted p).
Qed.

(** X14: the password dialog never raises and never hands out a password
    the wallet rejects: it returns the first attempt that the wallet
    accepts (any attempt, for a wallet without a password) after caching
    it through [cache_pw]; and when no attempt is accepted it returns
    [None] and leaves everything as it was. *)
Theorem PasswordDialog_run_result (σ : World) (w : string) (attempts : list string) :
  let accepted (p : string) :=
    negb (has_password (wallets σ w)) || check_password (wallets σ w) (Some p) in
  match List.find accepted attempts with
  | Some p =>
      PasswordDialog_run w attempts σ = (inr (Some p), (cache_pw w p σ).2)
      ∧ p ∈ attempts ∧ accepted p = true
  | None => PasswordDialog_run w attempts σ = (inr None, σ)
  end.
Proof.
  intros accepted. induction attempts as [|p rest IH]; [done|].
  rewrite PasswordDialog_run_step. cbn [List.find]. fold (accepted p).
  destruct (accepted p) eqn:Hp.
  - split; [done|]. split; [apply elem_of_cons; by left | done].
  - destruct (List.find accepted rest) as [q|]; [|done].
    destruct IH as (Hrun & Hin & Hq). split; [done|].
    split; [apply elem_of_cons; by right | done].
Qed.

(** ** Switching autofuse on *)

Lemma get_cached_pw_alive σ w win :
  has_password (wallets σ w) = true →
  (window_for_wallet w σ).1 = inr (Some win) →
  get_cached_pw w σ
  = (inr (true,
          match password_cache σ !! w with
          | Some p => if check_password (wallets σ w) (Some p) then Some p else None
          | None => None
          end), σ).
Proof.
  intros Hp Hw.
  unfold get_cached_pw, wallet_has_password, window_for_wallet,
    gui_get_cached_password, wallet_check_password in *.
  run_monad. rewrite Hp. simpl.
  destruct (weak_window (wallets σ w)) as [r|]; [|discriminate].
  destruct (windows σ !! r); [|discriminate].
  destruct (password_cache σ !! w) as [p|]; [|done].
  by destruct (check_password (wallets σ w) (Some p)).
Qed.

Lemma get_cached_pw_dead σ w :
  has_password (wallets σ w) = true →
  (window_for_wallet w σ).1 = inr None →
  get_cached_pw w σ = (inl (RuntimeError (lacks_window_msg w)), σ).
Proof.
  intros Hp Hw.
  unfold get_cached_pw, wallet_has_password, window_for_wallet in *.
  run_monad. rewrite Hp. simpl.
  destruct (weak_window (wallets σ w)) as [r|]; [|done].
  by destruct (windows σ !! r).
Qed.

(** X15: switching autofuse on for a protected wallet whose window is gone
    fails with the [RuntimeError] of [get_cached_pw]: nothing is asked of
    the user, nothing is enabled and nothing else changes. *)
Theorem toggle_autofuse_without_window
    (σ : World) (w : string) (attempts : list string) (answer : bool) :
  (is_autofusing w σ).1 = inr false →
  has_password (wallets σ w) = true →
  (window_for_wallet w σ).1 = inr None →
  toggle_autofuse w attempts answer σ
  = (inl (RuntimeError (lacks_window_msg w)), σ).
Proof.
  intros Haf Hp Hw. rewrite is_autofusing_run in Haf. injection Haf as Haf.
  unfold toggle_autofuse. unfold bind at 1. rewrite is_autofusing_run, Haf.
  cbn [negb]. unfold bind at 1. by rewrite get_cached_pw_dead.
Qed.

Lemma toggle_autofuse_without_window_witness :
  toggle_autofuse "A" ["pw1"] true
    (set_autofusing_wallets (delete "A") example_world_no_window)
  = (inl (RuntimeError "Wallet A lacks a valid ElectrumWindow instance!"),
     set_autofusing_wallets (delete "A") example_world_no_window).
Proof.
  exact (toggle_autofuse_without_window
           (set_autofusing_wallets (delete "A") example_world_no_window)
           "A" ["pw1"] true eq_refl eq_refl eq_refl).
Defined.

(** X16: for a protected wallet without a usable cached password,
    [toggle_autofuse] asks for the password and enables nothing unless it
    gets one: when every attempt is rejected the world stays as it was;
    and when the plugin has been switched off in the meantime, an accepted
    password is cached but autofusing is not enabled. *)
Theorem toggle_autofuse_needs_password
    (σ : World) (w : string) (win : Window) (attempts : list string) (answer : bool) :
  (is_autofusing w σ).1 = inr false →
  has_password (wallets σ w) = true →
  (window_for_wallet w σ).1 = inr (Some win) →
  (∀ p, password_cache σ !! w = Some p →
        check_password (wallets σ w) (Some p) = false) →
  ((∀ p, p ∈ attempts → check_password (wallets σ w) (Some p) = false) →
     toggle_autofuse w attempts answer σ = (inr tt, σ))
  ∧ (∀ p, List.find (λ p, check_password (wallets σ w) (Some p)) attempts = Some p →
          active σ = false →
          toggle_autofuse w attempts answer σ = (inr tt, (cache_pw w p σ).2)
          ∧ autofusing_wallets (cache_pw w p σ).2 = autofusing_wallets σ).
Proof.
  intros Haf Hp Hw Hcache. rewrite is_autofusing_run in Haf. injection Haf as Haf.
  assert (Hget : get_cached_pw w σ = (inr (true, None), σ)).
  { rewrite (get_cached_pw_alive σ w win) by done.
    destruct (password_cache σ !! w) as [p|]; [|done]. by rewrite (Hcache p). }
  assert (Hrun : toggle_autofuse w attempts answer σ
                 = (password <- PasswordDialog_run w attempts ;;
                    act <- gets active ;;
                    if bool_decide (password = None) || negb act then ret tt
                    else try_except (enable_autofusing w password)
                           (λ e, match e with
                                 | InvalidPassword => ret tt
                                 | _ => raise e
                                 end)) σ).
  { unfold toggle_autofuse. unfold bind at 1. rewrite is_autofusing_run, Haf.
    cbn [negb]. unfold bind at 1. by rewrite Hget. }
  rewrite Hrun. clear Hrun.
  pose proof (PasswordDialog_run_dialog σ w attempts) as Hdlg.
  cbv zeta in Hdlg. rewrite Hp in Hdlg. cbn [negb orb] in Hdlg.
  split.
  - intros Hrej.
    assert (Hnone : List.find (λ p, check_password (wallets σ w) (Some p)) attempts = None).
    { apply find_None_all. intros p Hin. by apply Hrej. }
    rewrite Hnone in Hdlg. unfold bind at 1. rewrite Hdlg.
    unfold bind, gets, ret. simpl. done.
  - intros p Hsome Hact. rewrite Hsome in Hdlg.
    unfold bind at 1. rewrite Hdlg.
    assert (Hsame : active (cache_pw w p σ).2 = active σ
                    ∧ autofusing_wallets (cache_pw w p σ).2 = autofusing_wallets σ).
    { unfold cache_pw, window_for_wallet, gui_cache_password. run_monad.
      destruct (weak_window (wallets σ w)) as [r|]; [|done].
      by destruct (windows σ !! r). }
    destruct Hsame as [Ha Haw]. split; [|done].
    unfold bind, gets, ret. simpl. rewrite Ha, Hact. simpl. done.
Qed.

Lemma toggle_autofuse_needs_password_witness :
  toggle_autofuse "A" ["x"; "y"] true
    (set_autofusing_wallets (delete "A") example_world)
  = (inr tt, set_autofusing_wallets (delete "A") example_world).
Proof.
  destruct (toggle_autofuse_needs_password
              (set_autofusing_wallets (delete "A") example_world)
              "A" (mkWindow "A") ["x"; "y"] true) as [H _];
    [reflexivity | reflexivity | reflexivity | intros p; discriminate |].
  apply H. intros p Hin.
  apply elem_of_cons in Hin as [->|Hin]; [reflexivity|].
  apply elem_of_cons in Hin as [->|Hin]; [reflexivity|].
  by apply elem_of_nil in Hin.
Defined.

(** ** The server error on the button *)

(** X17: after [notify_server_status b tup] the plugin's server error is
    [None] when [b] is true and [tup] otherwise, whether or not the signal
    went out.  The slot of the button then takes over that error, shows
    the popup when there is an error and removes it when there is none,
    and does so only when the error differs from the one it had; called
    again, it does nothing. *)
Theorem server_error_follows_status
    (σ : World) (b : bool) (tup : string * string) (self : FusionButton) :
  let σ1 := (notify_server_status b tup σ).2 in
  let err := if b then None else Some tup in
  let r := update_server_error self σ1 in
  let name := "CashFusionError;" +:+ self_id self in
  get_server_error σ1 = (inr err, σ1)
  ∧ r.1 = inr (mkFusionButton (self_id self) err)
  ∧ trace r.2
    = trace σ1 ++ (if decide (err = server_error self) then []
                   else if b then [EvKillPopupLabel name]
                        else [EvShowPopupLabel name])
  ∧ update_server_error (mkFusionButton (self_id self) err) r.2
    = (inr (mkFusionButton (self_id self) err), r.2).
Proof.
  intros σ1 err r name.
  assert (Hlast : last_server_status σ1 = (b, tup)).
  { subst σ1. pose proof (notify_server_status_run σ (b, tup)) as Hrun.
    cbn [fst snd] in Hrun. rewrite Hrun.
    case_bool_decide as Hne; [done|]. cbn [snd].
    destruct (decide (last_server_status σ = (b, tup))); [done | by destruct Hne]. }
  assert (Hget : ∀ σ', last_server_status σ' = (b, tup) →
                       get_server_error σ' = (inr err, σ')).
  { intros σ' H. unfold get_server_error, gets. rewrite H. subst err. by destruct b. }
  split; [by apply Hget|].
  assert (Hr : r = (inr (mkFusionButton (self_id self) err),
                    if decide (err = server_error self) then σ1
                    else emit (if b then EvKillPopupLabel name
                               else EvShowPopupLabel name) σ1)).
  { subst r. unfold update_server_error. unfold bind at 1. rewrite (Hget σ1 Hlast).
    destruct (decide (err = server_error self)) as [He|He].
    - rewrite bool_decide_eq_false_2 by (intros H; by apply H).
      simpl. unfold ret. do 2 f_equal. destruct self. simpl in *. by subst.
    - rewrite bool_decide_eq_true_2 by done. simpl.
      subst err. by destruct b. }
  rewrite Hr. cbn [fst snd]. split; [done|]. split.
  - destruct (decide (err = server_error self)); [by rewrite app_nil_r|].
    by destruct b.
  - unfold update_server_error. unfold bind at 1.
    rewrite Hget by (destruct (decide (err = server_error self)); done).
    cbn [server_error]. by rewrite bool_decide_eq_false_2 by (intros H; by apply H).
Qed.

(** ** Raising the limit of queued fusions *)

(** X18: setting the limit of queued fusions to a value that is not below
    the stored one (or the default, when none is stored) stores the new
    value and requests no stop: every fusion and the trace of calls stay
    as they were. *)
Theorem edited_queued_autofuse_not_lowered
    (DEFAULT_QUEUED_AUTOFUSE : Z) (σ : World) (w : string) (value : Z) :
  (default DEFAULT_QUEUED_AUTOFUSE
     (storage (wallets σ w) !! "cashfusion_queued_autofuse") ≤ value)%Z →
  let r := edited_queued_autofuse DEFAULT_QUEUED_AUTOFUSE w value σ in
  r.1 = inr tt
  ∧ storage (wallets r.2 w) !! "cashfusion_queued_autofuse" = Some value
  ∧ fusions r.2 = fusions σ
  ∧ trace r.2 = trace σ
  ∧ (storage_get w "cashfusion_queued_autofuse" DEFAULT_QUEUED_AUTOFUSE r.2).1
    = inr value.
Proof.
  intros Hle r. subst r. rewrite edited_queued_autofuse_run. cbv zeta.
  rewrite bool_decide_eq_false_2 by lia.
  unfold storage_get, gets.
  cbn [fst snd wallets fusions trace set_wallets].
  rewrite fn_lookup_insert. cbn [storage set_storage]. rewrite lookup_insert_eq.
  done.
Qed.

Lemma edited_queued_autofuse_not_lowered_witness :
  fusions (edited_queued_autofuse 4 "A" 5 example_world).2 = fusions example_world
  ∧ trace (edited_queued_autofuse 4 "A" 5 example_world).2 = [].
Proof.
  destruct (edited_queued_autofuse_not_lowered 4 example_world "A" 5)
    as (_ & _ & Hf & Ht & _); [vm_compute; discriminate|].
  split; [exact Hf | exact Ht].
Defined.

(** ** The menu of the fusions window *)

(** X19: building the menu changes nothing, and the menu offers to cancel
    only when one of the selected fusions is waiting or running: with an
    empty selection there is no menu, and with a selection of fusions
    that have all ended or are already stopping the only entry there can
    be is "View tx". *)
Theorem menu_without_live_fusions (σ : World) (selected : list nat) :
  (create_menu_active_fusions selected σ).2 = σ
  ∧ create_menu_active_fusions [] σ = (inr [], σ)
  ∧ ((∀ f h, f ∈ selected → fusions σ !! f = Some h →
             status h ≠ waiting ∧ status h ≠ running) →
     ∃ menu, (create_menu_active_fusions selected σ).1 = inr menu
             ∧ ∀ label a, (label, a) ∈ menu →
                          label = "View tx" ∧ ∃ f, a = ActViewTx f ∧ f ∈ selected).
Proof.
  split; [by destruct selected|]. split; [done|].
  intros Hdead.
  destruct selected as [|s0 sel];
    [exists []; split; [done|]; intros ? ? H; by apply elem_of_nil in H|].
  unfold create_menu_active_fusions.
  cbv beta iota zeta delta [bind gets ret fst].
  set (fs := remove_dups
               (List.filter (λ f, bool_decide (is_Some (fusions σ !! f))) (s0 :: sel))).
  set (statuses := omap (λ f, status <$> fusions σ !! f) fs).
  assert (Hst : ∀ st, st ∈ statuses → st ≠ waiting ∧ st ≠ running).
  { intros st Hin. apply list_elem_of_omap in Hin as (f & Hf & Hs).
    apply selected_fusions_elem in Hf as [Hsel _].
    destruct (fusions σ !! f) as [h|] eqn:Hh; [|done]. simpl in Hs.
    injection Hs as <-. by apply (Hdead f h). }
  rewrite (bool_decide_eq_false_2 (running ∈ statuses))
    by (intros H; by destruct (Hst _ H)).
  rewrite (bool_decide_eq_false_2 (waiting ∈ statuses))
    by (intros H; by destruct (Hst _ H)).
  cbn [orb app]. eexists. split; [reflexivity|]. intros label a Hin.
  assert (Hmem : ∀ f, f ∈ fs → f ∈ s0 :: sel).
  { intros f Hf. by apply selected_fusions_elem in Hf as [Hsel _]. }
  clearbody fs. destruct fs as [|f [|? ?]]; try by apply elem_of_nil in Hin.
  destruct (fusions σ !! f ≫= txid) as [tx|]; [|by apply elem_of_nil in Hin].
  case_bool_decide; [by apply elem_of_nil in Hin|].
  apply list_elem_of_singleton in Hin as [= -> ->]. split; [done|].
  exists f. split; [done|]. apply Hmem, elem_of_cons. by left.
Qed.

Lemma menu_without_live_fusions_witness :
  ∃ menu, (create_menu_active_fusions [7] example_world).1 = inr menu
          ∧ ∀ label a, (label, a) ∈ menu → label = "View tx".
Proof.
  destruct (proj2 (proj2 (menu_without_live_fusions example_world [7])))
    as (menu & Hmenu & Hall).
  - intros f h Hin Hf. apply list_elem_of_singleton in Hin as ->. discriminate Hf.
  - exists menu. split; [exact Hmenu|]. intros label a Hin.
    exact (proj1 (Hall label a Hin)).
Defined.
